(** * VideoMetaAngular: the sequential processing pipeline

    A shallow embedding of [app.component.ts], [video-metadata.model.ts] and
    [services/gemini.service.ts]: the work queue, the processing controller,
    the frame and thumbnail extractors and the CSV export. *)

From Stdlib Require Import List String Ascii Bool Arith Lia QArith Qminmax.
Import ListNotations.
Open Scope string_scope.
Open Scope nat_scope.
Open Scope list_scope.

Set Implicit Arguments.

(** ** JavaScript numbers

    Timestamps are JavaScript [number]s.  The extractors only divide,
    multiply and take a minimum, so the development is stated over any
    carrier with these operations; rounding is whatever the carrier does. *)

Class JsNumber : Type := {
  num : Type;
  of_nat : nat -> num;
  ndiv : num -> num -> num;
  nmul : num -> num -> num;
  nmin : num -> num -> num
}.

(** Exact rationals, used to run the definitions on concrete inputs. *)
Definition QNumber : JsNumber :=
  {| num := Q;
     of_nat := fun n => inject_Z (Z.of_nat n);
     ndiv := Qdiv;
     nmul := Qmult;
     nmin := Qmin |}.

(** ** Data model: [video-metadata.model.ts] *)

(** The browser [File]: its name, its declared media type and an opaque
    handle on its content. *)
Record File : Type := {
  name : string;
  type : string;
  content : nat
}.

Inductive Status : Type := pending | processing | completed | failed.

Record VideoMetadata : Type := {
  id : string;
  file : File;
  thumbnail : option string;
  status : Status;
  title : string;
  keywords : list string;
  errorMessage : option string
}.

(** ** Promises and thrown values *)

(** A value that reaches a [catch]: an [Error] object with its message, or
    anything else. *)
Inductive Thrown : Type :=
| ErrorObj (message : string)
| NonError.

Inductive Settled (A : Type) : Type :=
| Resolved (a : A)
| Rejected (e : Thrown).
Arguments Resolved {A} a.
Arguments Rejected {A} e.

(** ** The media element and the canvas *)

Section Decoding.
Context {JN : JsNumber}.

(** What the browser does with one [<video>] element and one canvas:
    whether [getContext('2d')] returns a context, whether the resource
    loads ([loadedmetadata] with duration and dimensions) or fails
    ([error]), and the JPEG data URL the canvas yields once the element
    has seeked to a time.  After [loadedmetadata] the element answers each
    assignment to [currentTime] with one [seeked] event. *)
Record Decoder : Type := {
  context2d : bool;
  loadedmetadata : option (num * nat * nat);
  render : num -> string
}.

(** The calls the extractors make on the DOM, in program order. *)
Inductive DomEvent : Type :=
| CreateObjectURL (f : File)
| RevokeObjectURL
| SetCanvasSize (w h : nat)
| SetCurrentTime (t : num)
| Seeked
| DrawImage
| ToDataURL (frame : string).

(** The body of the [for] loop of [extractFrames], from counter [i] with
    [remaining = frameCount + 1 - i] iterations to go; [frames] is the array
    pushed to. *)
Fixpoint seekLoop (dec : Decoder) (interval : num) (i remaining : nat)
    (frames : list string) : list string * list DomEvent :=
  match remaining with
  | 0 => (frames, [])
  | S remaining' =>
      let t := nmul interval (of_nat i) in
      let frame := render dec t in
      let '(frames', evs) :=
        seekLoop dec interval (S i) remaining' (frames ++ [frame]) in
      (frames', SetCurrentTime t :: Seeked :: DrawImage :: ToDataURL frame :: evs)
  end.

Definition extractFrames (dec : Decoder) (f : File) (frameCount : nat)
    : Settled (list string) * list DomEvent :=
  if negb (context2d dec) then
    (Rejected (ErrorObj "Canvas context not available"), [])
  else
    match loadedmetadata dec with
    | Some (duration, w, h) =>
        let interval := ndiv duration (of_nat (frameCount + 1)) in
        let '(frames, evs) := seekLoop dec interval 1 frameCount [] in
        (Resolved frames,
         CreateObjectURL f :: SetCanvasSize w h :: evs ++ [RevokeObjectURL])
    | None =>
        (Rejected (ErrorObj "Failed to load video file."),
         [CreateObjectURL f; RevokeObjectURL])
    end.

Definition extractSingleFrame (dec : Decoder) (f : File) (timeInSeconds : num)
    : Settled string * list DomEvent :=
  if negb (context2d dec) then
    (Rejected (ErrorObj "Canvas context not available"), [])
  else
    match loadedmetadata dec with
    | Some (duration, w, h) =>
        let t := nmin timeInSeconds duration in
        let frame := render dec t in
        (Resolved frame,
         [CreateObjectURL f; SetCurrentTime t; Seeked; SetCanvasSize w h;
          DrawImage; ToDataURL frame; RevokeObjectURL])
    | None =>
        (Rejected (ErrorObj "Failed to load video file for thumbnail."),
         [CreateObjectURL f; RevokeObjectURL])
    end.

(** The timestamps assigned to [currentTime], in order. *)
Fixpoint seeks (log : list DomEvent) : list num :=
  match log with
  | [] => []
  | SetCurrentTime t :: log' => t :: seeks log'
  | _ :: log' => seeks log'
  end.

(** One seek at a time: [serialized busy log] holds when the log never
    assigns [currentTime] while a seek is outstanding ([busy]), captures a
    frame only for an outstanding seek, and ends with none outstanding. *)
Fixpoint serialized (busy : bool) (log : list DomEvent) : bool :=
  match log with
  | [] => negb busy
  | SetCurrentTime _ :: log' => negb busy && serialized true log'
  | ToDataURL _ :: log' => busy && serialized false log'
  | _ :: log' => serialized busy log'
  end.

(** The events of the [i]-th iteration of the [for] loop of
    [extractFrames], for the statements below. *)
Definition iteration (dec : Decoder) (interval : num) (i : nat)
    : list DomEvent :=
  let t := nmul interval (of_nat i) in
  [SetCurrentTime t; Seeked; DrawImage; ToDataURL (render dec t)].

End Decoding.

(** ** The inference client: [services/gemini.service.ts] *)

Record GoogleGenAI : Type := { clientKey : string }.

Record GeminiService : Type := {
  ai : option GoogleGenAI;
  apiKey : option string
}.

(** [process.env.API_KEY] as the constructor tests it: absent and empty are
    both falsy. *)
Definition truthy (k : option string) : bool :=
  match k with
  | Some s => negb (s =? "")%string
  | None => false
  end.

Definition GeminiService_new (API_KEY : option string) : GeminiService :=
  {| ai := match API_KEY with
           | Some k => if truthy API_KEY then Some {| clientKey := k |} else None
           | None => None
           end;
     apiKey := API_KEY |}.

Definition isConfigured (svc : GeminiService) : bool :=
  match ai svc with
  | Some _ => true
  | None => false
  end.

Record Metadata : Type := {
  meta_title : string;
  meta_keywords : list string
}.

(** [reply] is what the remote call and [JSON.parse] give inside the [try]:
    the parsed object, or [None] when either throws. *)
Definition generateMetadataFromFrames (svc : GeminiService)
    (frames : list string) (reply : option Metadata) : Settled Metadata :=
  match ai svc with
  | None => Rejected (ErrorObj "Gemini API key is not configured.")
  | Some _ =>
      match reply with
      | Some result => Resolved result
      | None => Rejected (ErrorObj "Failed to generate metadata from Gemini API.")
      end
  end.

(** ** The component: [app.component.ts] *)

Record AppComponent : Type := {
  geminiService : GeminiService;
  videos : list VideoMetadata;
  isProcessing : bool;
  isPaused : bool;
  currentIndex : nat;
  apiKeyMissing : bool;
  processQueueRunning : bool
}.

Definition AppComponent_new (svc : GeminiService) : AppComponent :=
  {| geminiService := svc;
     videos := [];
     isProcessing := false;
     isPaused := false;
     currentIndex := 0;
     apiKeyMissing := negb (isConfigured svc);
     processQueueRunning := false |}.

(** Signal writes. *)
Definition videos_update (f : list VideoMetadata -> list VideoMetadata)
    (s : AppComponent) : AppComponent :=
  {| geminiService := geminiService s;
     videos := f (videos s);
     isProcessing := isProcessing s;
     isPaused := isPaused s;
     currentIndex := currentIndex s;
     apiKeyMissing := apiKeyMissing s;
     processQueueRunning := processQueueRunning s |}.

Definition isProcessing_set (b : bool) (s : AppComponent) : AppComponent :=
  {| geminiService := geminiService s;
     videos := videos s;
     isProcessing := b;
     isPaused := isPaused s;
     currentIndex := currentIndex s;
     apiKeyMissing := apiKeyMissing s;
     processQueueRunning := processQueueRunning s |}.

Definition isPaused_set (b : bool) (s : AppComponent) : AppComponent :=
  {| geminiService := geminiService s;
     videos := videos s;
     isProcessing := isProcessing s;
     isPaused := b;
     currentIndex := currentIndex s;
     apiKeyMissing := apiKeyMissing s;
     processQueueRunning := processQueueRunning s |}.

Definition currentIndex_update (f : nat -> nat) (s : AppComponent)
    : AppComponent :=
  {| geminiService := geminiService s;
     videos := videos s;
     isProcessing := isProcessing s;
     isPaused := isPaused s;
     currentIndex := f (currentIndex s);
     apiKeyMissing := apiKeyMissing s;
     processQueueRunning := processQueueRunning s |}.

Definition currentIndex_set (i : nat) : AppComponent -> AppComponent :=
  currentIndex_update (fun _ => i).

Definition processQueueRunning_set (b : bool) (s : AppComponent)
    : AppComponent :=
  {| geminiService := geminiService s;
     videos := videos s;
     isProcessing := isProcessing s;
     isPaused := isPaused s;
     currentIndex := currentIndex s;
     apiKeyMissing := apiKeyMissing s;
     processQueueRunning := b |}.

(** *** Submission *)

Definition isVideo (f : File) : bool := String.prefix "video/" (type f).

(** The [map] of [onFileSelected]; [randomUUID k] is the result of the
    [k]-th call of [crypto.randomUUID] in this event. *)
Fixpoint mapNew (randomUUID : nat -> string) (k : nat) (fs : list File)
    : list VideoMetadata :=
  match fs with
  | [] => []
  | f :: fs' =>
      {| id := randomUUID k;
         file := f;
         thumbnail := None;
         status := pending;
         title := "";
         keywords := [];
         errorMessage := None |} :: mapNew randomUUID (S k) fs'
  end.

(** [input.files] is [None] when it is null. *)
Definition newVideos (files : option (list File)) (randomUUID : nat -> string)
    : list VideoMetadata :=
  match files with
  | None => []
  | Some fs => mapNew randomUUID 0 (filter isVideo fs)
  end.

(** The second component of the result lists the [alert]s raised. *)
Definition startProcessing (s : AppComponent) : AppComponent * list string :=
  if apiKeyMissing s then
    (s, ["API Key is missing. Cannot start processing."])
  else
    (isPaused_set false (isProcessing_set true s), []).

(** The thumbnail jobs started by [newVideos.forEach] run on their own;
    they are the [newVideos] of the same arguments. *)
Definition onFileSelected (files : option (list File))
    (randomUUID : nat -> string) (s : AppComponent)
    : AppComponent * list string :=
  match files with
  | None => (s, [])
  | Some _ =>
      let s1 := videos_update
                  (fun current => current ++ newVideos files randomUUID) s in
      if negb (isProcessing s1) then startProcessing s1 else (s1, [])
  end.

(** *** Item updates *)

Definition updateVideoStatus (id0 : string) (st : Status) (s : AppComponent)
    : AppComponent :=
  videos_update
    (map (fun v =>
            if (id v =? id0)%string then
              {| id := id v; file := file v; thumbnail := thumbnail v;
                 status := st; title := title v; keywords := keywords v;
                 errorMessage := None |}
            else v)) s.

Definition updateVideoResult (id0 : string) (st : Status) (title0 : string)
    (keywords0 : list string) (error : option string) (s : AppComponent)
    : AppComponent :=
  videos_update
    (map (fun v =>
            if (id v =? id0)%string then
              {| id := id v; file := file v; thumbnail := thumbnail v;
                 status := st; title := title0; keywords := keywords0;
                 errorMessage := error |}
            else v)) s.

(** *** The traversal

    [processQueue] is an [async] function: it runs until its next [await]
    and is resumed when the awaited promise settles. *)

Inductive Task : Type :=
| AwaitFrames (video : VideoMetadata)
| AwaitMetadata (video : VideoMetadata) (frames : list string).

Definition task_video (t : Task) : VideoMetadata :=
  match t with
  | AwaitFrames video => video
  | AwaitMetadata video _ => video
  end.

Inductive Traversal : Type :=
| Suspended (s : AppComponent) (t : Task)
| Returned (s : AppComponent)
| Threw (s : AppComponent) (e : Thrown)
| OutOfFuel.

Definition eligible (st : Status) : bool :=
  match st with
  | pending | failed => true
  | processing | completed => false
  end.

(** Lines 113-116. *)
Definition epilogue (s : AppComponent) : AppComponent :=
  processQueueRunning_set false
    (if List.length (videos s) <=? currentIndex s then isProcessing_set false s
     else s).

(** The [while] loop from its test to the next [await] or to the return.
    Reading [video.status] of an undefined [video] would throw outside the
    [try]. *)
Fixpoint whileLoop (fuel : nat) (s : AppComponent) : Traversal :=
  match fuel with
  | 0 => OutOfFuel
  | S fuel' =>
      if (currentIndex s <? List.length (videos s)) && isProcessing s
         && negb (isPaused s) then
        match nth_error (videos s) (currentIndex s) with
        | Some video =>
            if eligible (status video) then
              Suspended (updateVideoStatus (id video) processing s)
                        (AwaitFrames video)
            else whileLoop fuel' (currentIndex_update S s)
        | None => Threw s (ErrorObj "Cannot read properties of undefined")
        end
      else Returned (epilogue s)
  end.

Definition processQueue_loop (s : AppComponent) : Traversal :=
  whileLoop (S (List.length (videos s) - currentIndex s)) s.

Definition processQueue_start (s : AppComponent) : Traversal :=
  processQueue_loop (processQueueRunning_set true s).

(** The [catch] block. *)
Definition catchBlock (video : VideoMetadata) (error : Thrown)
    (s : AppComponent) : AppComponent :=
  let message :=
    match error with
    | ErrorObj m => m
    | NonError => "An unknown error occurred"
    end in
  updateVideoResult (id video) failed "" [] (Some message) s.

(** Resumption after [await this.extractFrames(video.file, 8)]. *)
Definition onFramesSettled (video : VideoMetadata)
    (r : Settled (list string)) (s : AppComponent) : Traversal :=
  match r with
  | Resolved frames => Suspended s (AwaitMetadata video frames)
  | Rejected error =>
      processQueue_loop (currentIndex_update S (catchBlock video error s))
  end.

(** Resumption after [await this.geminiService.generateMetadataFromFrames]. *)
Definition onMetadataSettled (video : VideoMetadata) (r : Settled Metadata)
    (s : AppComponent) : Traversal :=
  match r with
  | Resolved m =>
      processQueue_loop
        (currentIndex_update S
           (updateVideoResult (id video) completed (meta_title m)
              (meta_keywords m) None s))
  | Rejected error =>
      processQueue_loop (currentIndex_update S (catchBlock video error s))
  end.

(** The [effect] of the constructor. *)
Definition effectBody (s : AppComponent) : Traversal :=
  if isProcessing s && negb (isPaused s) && negb (processQueueRunning s)
  then processQueue_start s
  else Returned s.

(** *** Controls *)

Definition pauseProcessing (s : AppComponent) : AppComponent :=
  isPaused_set true s.

Definition resumeProcessing (s : AppComponent) : AppComponent :=
  isPaused_set false s.

Definition stopProcessing (s : AppComponent) : AppComponent :=
  let s1 := isProcessing_set false s in
  let s2 := isPaused_set false s1 in
  currentIndex_set (List.length (videos s2)) s2.

Definition retryFailed (s : AppComponent) : AppComponent * list string :=
  startProcessing (currentIndex_set 0 s).

Definition clearAll (s : AppComponent) : AppComponent :=
  isPaused_set false
    (isProcessing_set false
       (currentIndex_set 0 (videos_update (fun _ => []) s))).

(** *** Thumbnails *)

(** Resumption of [generateThumbnail] after [await extractSingleFrame]; the
    second component lists what goes to [console.error]. *)
Definition generateThumbnail_settled (video : VideoMetadata)
    (r : Settled string) (s : AppComponent) : AppComponent * list string :=
  match r with
  | Resolved frame =>
      (videos_update
         (map (fun v =>
                 if (id v =? id video)%string then
                   {| id := id v; file := file v; thumbnail := Some frame;
                      status := status v; title := title v;
                      keywords := keywords v;
                      errorMessage := errorMessage v |}
                 else v)) s, [])
  | Rejected _ =>
      (s, [("Failed to generate thumbnail for " ++ name (file video) ++ ":")%string])
  end.

(** *** CSV export *)

Definition dquote : ascii := "034"%char.
Definition comma : ascii := ","%char.
Definition newline : ascii := "010"%char.

(** [str.replace(/c/g, by)] for a one-character pattern [c]. *)
Fixpoint replaceAll (c : ascii) (by_ : string) (str : string) : string :=
  match str with
  | EmptyString => EmptyString
  | String a str' =>
      if Ascii.eqb a c then (by_ ++ replaceAll c by_ str')%string
      else String a (replaceAll c by_ str')
  end.

(** [Array.prototype.join] on strings. *)
Fixpoint join (sep : string) (l : list string) : string :=
  match l with
  | [] => EmptyString
  | [x] => x
  | x :: l' => (x ++ sep ++ join sep l')%string
  end.

Definition escape (str : string) : string :=
  String dquote
    (replaceAll dquote (String dquote (String dquote "")) str
     ++ String dquote "")%string.

Definition csvRow (v : VideoMetadata) : string :=
  join ","
    [escape (name (file v)); escape (title v);
     escape (join ", " (keywords v))].

Definition isCompleted (v : VideoMetadata) : bool :=
  match status v with
  | completed => true
  | _ => false
  end.

Definition csvHeader : string := ("Filename,Title,Keywords" ++ String newline "")%string.

(** The content handed to the [Blob]; [None] when the method returns before
    building it. *)
Definition downloadCSV (s : AppComponent) : option string :=
  let completed_ := filter isCompleted (videos s) in
  if List.length completed_ =? 0 then None
  else
    let rows := join (String newline "") (map csvRow completed_) in
    Some (csvHeader ++ rows)%string.

(** A reader for the CSV format of RFC 4180 (with a bare line feed as the
    record separator): fields separated by commas, records by line breaks,
    a field either bare or enclosed in double quotes, a double quote inside
    a quoted field written twice.  It is the reference the export is
    compared with, not part of the component. *)
Inductive ReadMode : Type := FieldStart | Bare | Quoted | QuoteSeen.

Fixpoint readCSV (m : ReadMode) (field : string) (fields : list string)
    (doc : string) : option (list (list string)) :=
  match doc with
  | EmptyString =>
      match m with
      | FieldStart =>
          match fields with
          | [] => Some []
          | _ => Some [fields ++ [EmptyString]]
          end
      | Bare | QuoteSeen => Some [fields ++ [field]]
      | Quoted => None
      end
  | String c doc' =>
      match m with
      | FieldStart =>
          if Ascii.eqb c dquote then readCSV Quoted EmptyString fields doc'
          else if Ascii.eqb c comma then
            readCSV FieldStart EmptyString (fields ++ [EmptyString]) doc'
          else if Ascii.eqb c newline then
            option_map (cons (fields ++ [EmptyString]))
                       (readCSV FieldStart EmptyString [] doc')
          else readCSV Bare (String c EmptyString) fields doc'
      | Bare =>
          if Ascii.eqb c dquote then None
          else if Ascii.eqb c comma then
            readCSV FieldStart EmptyString (fields ++ [field]) doc'
          else if Ascii.eqb c newline then
            option_map (cons (fields ++ [field]))
                       (readCSV FieldStart EmptyString [] doc')
          else readCSV Bare (field ++ String c EmptyString)%string fields doc'
      | Quoted =>
          if Ascii.eqb c dquote then readCSV QuoteSeen field fields doc'
          else readCSV Quoted (field ++ String c EmptyString)%string fields doc'
      | QuoteSeen =>
          if Ascii.eqb c dquote then
            readCSV Quoted (field ++ String dquote EmptyString)%string fields doc'
          else if Ascii.eqb c comma then
            readCSV FieldStart EmptyString (fields ++ [field]) doc'
          else if Ascii.eqb c newline then
            option_map (cons (fields ++ [field]))
                       (readCSV FieldStart EmptyString [] doc')
          else None
      end
  end.

(** The three fields an exported row stands for. *)
Definition csvFields (v : VideoMetadata) : list string :=
  [name (file v); title v; join ", " (keywords v)].

(** ** The pipeline in its environment *)

Section Pipeline.
Context {JN : JsNumber}.

(** What the browser and the remote model answer to the requests made for
    the item at a queue position: the decoder behind [extractFrames] and the
    reply to the inference call. *)
Record Env : Type := {
  decoderAt : nat -> Decoder;
  replyAt : nat -> option Metadata
}.

(** Settles the promise a suspended traversal awaits and resumes it. *)
Definition resumeTask (env : Env) (s : AppComponent) (t : Task) : Traversal :=
  match t with
  | AwaitFrames video =>
      onFramesSettled video
        (fst (extractFrames (decoderAt env (currentIndex s)) (file video) 8)) s
  | AwaitMetadata video frames =>
      onMetadataSettled video
        (generateMetadataFromFrames (geminiService s) frames
           (replyAt env (currentIndex s))) s
  end.

(** Runs a traversal to its end with no other event in between; the list
    collects the requests awaited on the way. *)
Fixpoint drain (fuel : nat) (env : Env) (tr : Traversal) (log : list Task)
    : Traversal * list Task :=
  match tr with
  | Suspended s t =>
      match fuel with
      | 0 => (OutOfFuel, log)
      | S fuel' => drain fuel' env (resumeTask env s t) (log ++ [t])
      end
  | _ => (tr, log)
  end.

Definition processQueue (env : Env) (s : AppComponent)
    : Traversal * list Task :=
  drain (2 * (List.length (videos s) - currentIndex s)) env
        (processQueue_start s) [].

(** The effect followed by the whole traversal it starts. *)
Definition runEffect (env : Env) (s : AppComponent) : Traversal * list Task :=
  drain (2 * (List.length (videos s) - currentIndex s)) env (effectBody s) [].

(** *** The event loop

    The component, the suspended traversal if there is one, the thumbnail
    jobs not yet settled, and the identifiers [crypto.randomUUID] has
    handed out. *)
Record System : Type := {
  app : AppComponent;
  task : option Task;
  thumbnailJobs : list VideoMetadata;
  issued : list string
}.

Definition boot (API_KEY : option string) : System :=
  {| app := AppComponent_new (GeminiService_new API_KEY);
     task := None;
     thumbnailJobs := [];
     issued := [] |}.

Inductive Action : Type :=
| FileSelected (files : option (list File)) (randomUUID : nat -> string)
| StartProcessing
| PauseProcessing
| ResumeProcessing
| StopProcessing
| RetryFailed
| ClearAll
| DownloadCSV
| EffectRun
| FramesSettled (dec : Decoder)
| MetadataSettled (reply : option Metadata)
| ThumbnailSettled (job : nat) (dec : Decoder).

Fixpoint distinct (l : list string) : bool :=
  match l with
  | [] => true
  | x :: l' => negb (existsb (String.eqb x) l') && distinct l'
  end.

Definition with_app (s : AppComponent) (sys : System) : System :=
  {| app := s;
     task := task sys;
     thumbnailJobs := thumbnailJobs sys;
     issued := issued sys |}.

Definition install (tr : Traversal) (sys : System) : option System :=
  match tr with
  | Suspended s t =>
      Some {| app := s; task := Some t;
              thumbnailJobs := thumbnailJobs sys; issued := issued sys |}
  | Returned s | Threw s _ =>
      Some {| app := s; task := None;
              thumbnailJobs := thumbnailJobs sys; issued := issued sys |}
  | OutOfFuel => None
  end.

(** One turn of the event loop; [None] when the event cannot occur in this
    state.  [crypto.randomUUID] never repeats an identifier. *)
Definition exec (a : Action) (sys : System) : option System :=
  match a with
  | FileSelected files randomUUID =>
      let vs := newVideos files randomUUID in
      if distinct (issued sys ++ map id vs) then
        Some {| app := fst (onFileSelected files randomUUID (app sys));
                task := task sys;
                thumbnailJobs := thumbnailJobs sys ++ vs;
                issued := issued sys ++ map id vs |}
      else None
  | StartProcessing => Some (with_app (fst (startProcessing (app sys))) sys)
  | PauseProcessing => Some (with_app (pauseProcessing (app sys)) sys)
  | ResumeProcessing => Some (with_app (resumeProcessing (app sys)) sys)
  | StopProcessing => Some (with_app (stopProcessing (app sys)) sys)
  | RetryFailed => Some (with_app (fst (retryFailed (app sys))) sys)
  | ClearAll => Some (with_app (clearAll (app sys)) sys)
  | DownloadCSV => Some sys
  | EffectRun =>
      if isProcessing (app sys) && negb (isPaused (app sys))
         && negb (processQueueRunning (app sys))
      then install (processQueue_start (app sys)) sys
      else Some sys
  | FramesSettled dec =>
      match task sys with
      | Some (AwaitFrames video) =>
          install
            (onFramesSettled video
               (fst (extractFrames dec (file video) 8)) (app sys)) sys
      | _ => None
      end
  | MetadataSettled reply =>
      match task sys with
      | Some (AwaitMetadata video frames) =>
          install
            (onMetadataSettled video
               (generateMetadataFromFrames (geminiService (app sys)) frames
                  reply) (app sys)) sys
      | _ => None
      end
  | ThumbnailSettled job dec =>
      match nth_error (thumbnailJobs sys) job with
      | Some video =>
          let r := fst (extractSingleFrame dec (file video) (of_nat 1)) in
          Some {| app := fst (generateThumbnail_settled video r (app sys));
                  task := task sys;
                  thumbnailJobs := firstn job (thumbnailJobs sys)
                                   ++ skipn (S job) (thumbnailJobs sys);
                  issued := issued sys |}
      | None => None
      end
  end.

Fixpoint run (acts : list Action) (sys : System) : option System :=
  match acts with
  | [] => Some sys
  | a :: acts' =>
      match exec a sys with
      | Some sys' => run acts' sys'
      | None => None
      end
  end.

Definition reachable (API_KEY : option string) (sys : System) : Prop :=
  exists acts, run acts (boot API_KEY) = Some sys.

End Pipeline.

(** ** What a traversal leaves behind

    The expected result of an uninterrupted traversal, written item by
    item; the traversal itself is [processQueue] above. *)

Definition messageOf (error : Thrown) : string :=
  match error with
  | ErrorObj m => m
  | NonError => "An unknown error occurred"
  end.

Definition failedItem (v : VideoMetadata) (error : Thrown) : VideoMetadata :=
  {| id := id v; file := file v; thumbnail := thumbnail v;
     status := failed; title := ""; keywords := [];
     errorMessage := Some (messageOf error) |}.

Definition completedItem (v : VideoMetadata) (m : Metadata) : VideoMetadata :=
  {| id := id v; file := file v; thumbnail := thumbnail v;
     status := completed; title := meta_title m;
     keywords := meta_keywords m; errorMessage := None |}.

Definition processingItem (v : VideoMetadata) : VideoMetadata :=
  {| id := id v; file := file v; thumbnail := thumbnail v;
     status := processing; title := title v; keywords := keywords v;
     errorMessage := None |}.

Section Sweep.
Context {JN : JsNumber}.
Variable svc : GeminiService.
Variable env : Env.

(** The item at position [i] once its step is over. *)
Definition outcome (i : nat) (v : VideoMetadata) : VideoMetadata :=
  match fst (extractFrames (decoderAt env i) (file v) 8) with
  | Rejected e => failedItem v e
  | Resolved frames =>
      match generateMetadataFromFrames svc frames (replyAt env i) with
      | Resolved m => completedItem v m
      | Rejected e => failedItem v e
      end
  end.

(** The requests made for the item at position [i]. *)
Definition requests (i : nat) (v : VideoMetadata) : list Task :=
  match fst (extractFrames (decoderAt env i) (file v) 8) with
  | Rejected _ => [AwaitFrames v]
  | Resolved frames => [AwaitFrames v; AwaitMetadata v frames]
  end.

Fixpoint sweep (i : nat) (l : list VideoMetadata) : list VideoMetadata :=
  match l with
  | [] => []
  | v :: l' =>
      (if eligible (status v) then outcome i v else v) :: sweep (S i) l'
  end.

Fixpoint sweepLog (i : nat) (l : list VideoMetadata) : list Task :=
  match l with
  | [] => []
  | v :: l' =>
      (if eligible (status v) then requests i v else []) ++ sweepLog (S i) l'
  end.

End Sweep.

(** The component after a traversal that ran to the end of the queue. *)
Definition finished (s : AppComponent) (vs : list VideoMetadata)
    : AppComponent :=
  {| geminiService := geminiService s;
     videos := vs;
     isProcessing := false;
     isPaused := false;
     currentIndex := List.length vs;
     apiKeyMissing := apiKeyMissing s;
     processQueueRunning := false |}.

(** ** Invariants *)

(** What the data model says of one item: an error message only on a failed
    item, a title or keywords only on a completed one. *)
Definition itemInvariant (v : VideoMetadata) : Prop :=
  (errorMessage v <> None -> status v = failed)
  /\ (status v <> completed -> title v = "" /\ keywords v = []).

(** The component: the start gate mirrors the service, an unconfigured
    component is never processing, identifiers are unique, and every item
    satisfies [itemInvariant]. *)
Record componentInvariant (s : AppComponent) : Prop := {
  inv_gate : apiKeyMissing s = negb (isConfigured (geminiService s));
  inv_idle : apiKeyMissing s = true -> isProcessing s = false;
  inv_ids : NoDup (map id (videos s));
  inv_items : Forall itemInvariant (videos s)
}.

Definition idThumbnail (v : VideoMetadata) : string * option string :=
  (id v, thumbnail v).

(** What a traversal step keeps: the invariant, the identifiers and the
    thumbnails. *)
Definition keeps (s : AppComponent) (s' : AppComponent) : Prop :=
  componentInvariant s'
  /\ map idThumbnail (videos s') = map idThumbnail (videos s).

(** A property of the component a traversal stops in. *)
Definition lands (P : AppComponent -> Prop) (tr : Traversal) : Prop :=
  match tr with
  | Suspended s _ | Returned s | Threw s _ => P s
  | OutOfFuel => True
  end.

Section SystemInvariant.
Context {JN : JsNumber}.

(** The event loop: identifiers come from [crypto.randomUUID] and are
    handed out once; an item whose thumbnail job has not settled has no
    thumbnail. *)
Record systemInvariant (sys : System) : Prop := {
  sys_app : componentInvariant (app sys);
  sys_issued : incl (map id (videos (app sys))) (issued sys);
  sys_distinct : distinct (issued sys) = true;
  sys_jobs_issued : incl (map id (thumbnailJobs sys)) (issued sys);
  sys_jobs_distinct : NoDup (map id (thumbnailJobs sys));
  sys_jobs_pending :
    forall p, In p (map idThumbnail (videos (app sys))) ->
              In (fst p) (map id (thumbnailJobs sys)) -> snd p = None
}.

End SystemInvariant.

(** What the controller writes of an item, as opposed to its thumbnail. *)
Definition core (v : VideoMetadata)
    : string * File * Status * string * list string * option string :=
  (id v, file v, status v, title v, keywords v, errorMessage v).

(** Every item completed in [l] is at the same position in [l'], with the
    same [core]. *)
Definition frameCompleted (l l' : list VideoMetadata) : Prop :=
  forall j v, nth_error l j = Some v -> status v = completed ->
              exists v', nth_error l' j = Some v' /\ core v' = core v.

(** A traversal is suspended on [video]: the reentrancy guard is up and
    the item with that identifier, if still queued, is [processing]. *)
Definition inFlight (s : AppComponent) (video : VideoMetadata) : Prop :=
  processQueueRunning s = true
  /\ forall v, In v (videos s) -> id v = id video -> status v = processing.

(** Where a resumed traversal stops, starting from the queue [l] with the
    identifiers [known] handed out so far. *)
Definition stepped (known : list string) (l : list VideoMetadata)
    (tr : Traversal) : Prop :=
  match tr with
  | Suspended s' t =>
      inFlight s' (task_video t)
      /\ In (id (task_video t)) known
      /\ frameCompleted l (videos s')
  | Returned s' =>
      processQueueRunning s' = false /\ frameCompleted l (videos s')
  | Threw _ _ | OutOfFuel => False
  end.

Record taskInvariant (sys : System) : Prop := {
  task_idle : task sys = None -> processQueueRunning (app sys) = false;
  task_busy : forall t, task sys = Some t ->
                        inFlight (app sys) (task_video t)
                        /\ In (id (task_video t)) (issued sys)
}.

Section Interleaving.
Context {JN : JsNumber}.

Definition isClearAll (a : Action) : bool :=
  match a with
  | ClearAll => true
  | _ => false
  end.

Definition noClear (acts : list Action) : bool :=
  forallb (fun a => negb (isClearAll a)) acts.

End Interleaving.

(** The record of a failure on an item. *)
Definition failedWith (error : Thrown) (v : VideoMetadata) : Prop :=
  status v = failed /\ errorMessage v = Some (messageOf error)
  /\ title v = "" /\ keywords v = [].

(** Where the traversal stops after the [catch] block has recorded [error]
    for [video] with the cursor at [i]: past [i], not by an exception, and
    with the failure on record unless the loop has picked the same item up
    again. *)
Definition caught (error : Thrown) (video : VideoMetadata) (i : nat)
    (tr : Traversal) : Prop :=
  match tr with
  | Returned s' =>
      i < currentIndex s'
      /\ forall v, In v (videos s') -> id v = id video -> failedWith error v
  | Suspended s' t =>
      i < currentIndex s'
      /\ forall v, In v (videos s') -> id v = id video ->
                   failedWith error v
                   \/ (id (task_video t) = id video
                       /\ status v = processing)
  | Threw _ _ | OutOfFuel => False
  end.

(** The [alert] of a rejected start. *)
Definition rejection : list string :=
  ["API Key is missing. Cannot start processing."].

(** ** The rest of the component and of the service *)

(** *** Computed signals (lines 34-39) *)

Definition isFailed (v : VideoMetadata) : bool :=
  match status v with
  | failed => true
  | _ => false
  end.

Definition canPause (s : AppComponent) : bool :=
  isProcessing s && negb (isPaused s).

Definition canResume (s : AppComponent) : bool :=
  isProcessing s && isPaused s.

Definition canStop (s : AppComponent) : bool := isProcessing s.

Definition canClear (s : AppComponent) : bool :=
  (0 <? List.length (videos s)) && negb (isProcessing s).

Definition canRetry (s : AppComponent) : bool :=
  existsb isFailed (videos s) && negb (isProcessing s).

Definition canDownload (s : AppComponent) : bool :=
  existsb isCompleted (videos s) && negb (isProcessing s).

(** *** The clipboard acknowledgement (lines 239-248)

    [copiedState] is a JavaScript object used as a map from keys to
    booleans; it is independent of the rest of the component and is
    carried on its own.  The object keeps its keys in insertion order. *)

Definition CopiedState : Type := list (string * bool).

(** [{...s, [key]: b}]. *)
Fixpoint setKey (key : string) (b : bool) (o : CopiedState) : CopiedState :=
  match o with
  | [] => [(key, b)]
  | (k, v) :: o' =>
      if (k =? key)%string then (k, b) :: o' else (k, v) :: setKey key b o'
  end.

(** [s[key]]; [None] is [undefined]. *)
Fixpoint getKey (key : string) (o : CopiedState) : option bool :=
  match o with
  | [] => None
  | (k, v) :: o' => if (k =? key)%string then Some v else getKey key o'
  end.

(** The first argument of [copyToClipboard]: a string or an array. *)
Inductive ClipText : Type :=
| OneString (text : string)
| StringArray (text : list string).

(** What is handed to [navigator.clipboard.writeText]. *)
Definition clipboardContent (text : ClipText) : string :=
  match text with
  | OneString t => t
  | StringArray l => join ", " l
  end.

Definition copiedKey (type_ id_ : string) : string :=
  (id_ ++ "-" ++ type_)%string.

(** The [then] callback, run when the clipboard write has resolved. *)
Definition copied_written (type_ id_ : string) (o : CopiedState)
    : CopiedState :=
  setKey (copiedKey type_ id_) true o.

(** The [setTimeout] callback, run two seconds later. *)
Definition copied_expired (type_ id_ : string) (o : CopiedState)
    : CopiedState :=
  setKey (copiedKey type_ id_) false o.

(** *** The image parts of the inference request
    ([gemini.service.ts], lines 27-32) *)

(** [str.split(c)] for a one-character separator. *)
Fixpoint split (c : ascii) (str : string) : list string :=
  match str with
  | EmptyString => [EmptyString]
  | String a str' =>
      if Ascii.eqb a c then EmptyString :: split c str'
      else
        match split c str' with
        | piece :: pieces => String a piece :: pieces
        | [] => [String a EmptyString]
        end
  end.

(** [frame.split(',')[1]]; [None] is [undefined]. *)
Definition inlineData (frame : string) : option string :=
  nth_error (split comma frame) 1.

(** The [mimeType] and [data] of each part. *)
Definition imageParts (frames : list string) : list (string * option string) :=
  map (fun frame => ("image/jpeg", inlineData frame)) frames.

(** Whether a character occurs in a string. *)
Fixpoint occurs (c : ascii) (str : string) : bool :=
  match str with
  | EmptyString => false
  | String a str' => Ascii.eqb a c || occurs c str'
  end.

(** *** Object URLs in the event log of an extractor *)

Section ObjectURLs.
Context {JN : JsNumber}.

Fixpoint created (log : list DomEvent) : nat :=
  match log with
  | [] => 0
  | CreateObjectURL _ :: log' => S (created log')
  | _ :: log' => created log'
  end.

Fixpoint revoked (log : list DomEvent) : nat :=
  match log with
  | [] => 0
  | RevokeObjectURL :: log' => S (revoked log')
  | _ :: log' => revoked log'
  end.

End ObjectURLs.

(** ** More invariants of the event loop *)

(** The messages the extractors and the service reject with, apart from
    the one for a missing key. *)
Definition knownMessages : list string :=
  ["Canvas context not available";
   "Failed to load video file.";
   "Failed to generate metadata from Gemini API."].

(** Where the loop stops and how it got there, from the component [s] at
    its test. *)
Definition loopShape (s : AppComponent) (tr : Traversal) : Prop :=
  match tr with
  | Returned s' =>
      videos s' = videos s
      /\ currentIndex s <= currentIndex s'
      /\ currentIndex s' <= Nat.max (currentIndex s) (List.length (videos s))
      /\ processQueueRunning s' = false
      /\ apiKeyMissing s' = apiKeyMissing s
      /\ geminiService s' = geminiService s
      /\ isPaused s' = isPaused s
      /\ (isProcessing s' = true -> isProcessing s = true)
  | Suspended s' t =>
      exists video,
        t = AwaitFrames video
        /\ nth_error (videos s) (currentIndex s') = Some video
        /\ eligible (status video) = true
        /\ videos s' = videos (updateVideoStatus (id video) processing s)
        /\ currentIndex s <= currentIndex s'
        /\ processQueueRunning s' = processQueueRunning s
        /\ apiKeyMissing s' = apiKeyMissing s
        /\ geminiService s' = geminiService s
        /\ isProcessing s' = true
        /\ isPaused s' = false
  | Threw _ _ | OutOfFuel => False
  end.

Record loopInvariant (sys : System) : Prop := {
  li_cursor :
    currentIndex (app sys) <= List.length (videos (app sys)) + 1;
  li_cursor_busy :
    task sys <> None ->
    currentIndex (app sys) <= List.length (videos (app sys));
  li_configured : task sys <> None -> apiKeyMissing (app sys) = false;
  li_processing :
    forall v, In v (videos (app sys)) -> status v = processing ->
              exists t, task sys = Some t /\ id (task_video t) = id v;
  li_messages :
    forall v, In v (videos (app sys)) -> status v = failed ->
              exists m, errorMessage v = Some m /\ In m knownMessages;
  li_unconfigured :
    apiKeyMissing (app sys) = true ->
    Forall (fun v => status v = pending) (videos (app sys))
}.


(** ** Inputs the definitions are run on *)

Definition clip : File :=
  {| name := "clip.mp4"; type := "video/mp4"; content := 1 |}.

(** A decoder over the rationals: a ten-second clip of 640 by 360 whose
    frames are all rendered to the same data URL. *)
Definition tenSeconds : @Decoder QNumber :=
  @Build_Decoder QNumber true (Some ((10 # 1)%Q, 640, 360))
    (fun _ => "data:image/jpeg;base64,AAAA").

Definition sampleUUID (k : nat) : string :=
  match k with
  | 0 => "3f2a"
  | 1 => "9c41"
  | _ => "d07e"
  end.

(** A resource that fails to load. *)
Definition broken : @Decoder QNumber :=
  @Build_Decoder QNumber true None (fun _ => "").

Definition orBoot (k : option string) (r : option System) : System :=
  match r with
  | Some sys => sys
  | None => boot k
  end.

(** No API key: one clip submitted, then stop. *)
Definition unconfiguredStopped : System :=
  orBoot None
    (@run QNumber [FileSelected (Some [clip]) sampleUUID; StopProcessing]
       (boot None)).

(** With a key: one clip submitted, the traversal started, and its frame
    extraction failed. *)
Definition afterFailure : System :=
  orBoot (Some "key")
    (@run QNumber [FileSelected (Some [clip]) sampleUUID; EffectRun;
                   FramesSettled broken] (boot (Some "key"))).

Definition clip2 : File :=
  {| name := "walk.webm"; type := "video/webm"; content := 2 |}.

Definition answerT : Metadata :=
  {| meta_title := "T"; meta_keywords := ["a"; "b"] |}.

(** Every clip decodes and the model answers every request with
    [answerT]. *)
Definition allGood : @Env QNumber :=
  @Build_Env QNumber (fun _ => tenSeconds) (fun _ => Some answerT).

(** The same, except that no resource loads. *)
Definition allBroken : @Env QNumber :=
  @Build_Env QNumber (fun _ => broken) (fun _ => Some answerT).

Definition sampleItem (i : string) (st : Status) (t : string)
    (ks : list string) (e : option string) : VideoMetadata :=
  {| id := i; file := clip; thumbnail := None; status := st; title := t;
     keywords := ks; errorMessage := e |}.

(** A configured, idle component with one completed and one failed item. *)
Definition oneDoneOneFailed : AppComponent :=
  {| geminiService := GeminiService_new (Some "key");
     videos := [sampleItem "3f2a" completed "Done" ["x"] None;
                sampleItem "9c41" failed "" [] (Some "Failed to load video file.")];
     isProcessing := false;
     isPaused := false;
     currentIndex := 2;
     apiKeyMissing := false;
     processQueueRunning := false |}.

(** A running component with one pending item. *)
Definition onePending : AppComponent :=
  {| geminiService := GeminiService_new (Some "key");
     videos := [sampleItem "3f2a" pending "" [] None];
     isProcessing := true;
     isPaused := false;
     currentIndex := 0;
     apiKeyMissing := false;
     processQueueRunning := false |}.

(** A title with the word hi between double quotes after He said, and the
    field it is exported as: enclosed in quotes, each inner quote twice. *)
Definition heSaidHi : string :=
  ("He said " ++ String dquote ("hi" ++ String dquote ""))%string.

Definition heSaidHiField : string :=
  (String dquote
     ("He said " ++ String dquote (String dquote
        ("hi" ++ String dquote (String dquote (String dquote ""))))))%string.

(** An idle component whose only completed item carries that title. *)
Definition quotedTitle : AppComponent :=
  {| geminiService := GeminiService_new (Some "key");
     videos := [sampleItem "3f2a" completed heSaidHi ["a"; "b"] None;
                sampleItem "9c41" failed "" [] (Some "Failed to load video file.")];
     isProcessing := false;
     isPaused := false;
     currentIndex := 2;
     apiKeyMissing := false;
     processQueueRunning := false |}.

(** With a key: one clip submitted and the traversal awaiting its frames. *)
Definition awaitingFrames : System :=
  orBoot (Some "key")
    (@run QNumber [FileSelected (Some [clip]) sampleUUID; EffectRun]
       (boot (Some "key"))).

(** With a key: one clip submitted and processed to completion. *)
Definition afterSuccess : System :=
  orBoot (Some "key")
    (@run QNumber [FileSelected (Some [clip]) sampleUUID; EffectRun;
                   FramesSettled tenSeconds; MetadataSettled (Some answerT)]
       (boot (Some "key"))).

(** The same after a retry and the effect it triggers. *)
Definition afterRetry : System :=
  orBoot (Some "key") (@run QNumber [RetryFailed; EffectRun] afterSuccess).

(** With a key: one clip submitted, the traversal started, a stop
    requested while the clip is in flight, and its extraction failed. *)
Definition stoppedInFlight : System :=
  orBoot (Some "key")
    (@run QNumber [FileSelected (Some [clip]) sampleUUID; EffectRun;
                   StopProcessing; FramesSettled broken]
       (boot (Some "key"))).

(** The identifiers handed out by a second file selection. *)
Definition laterUUID (k : nat) : string :=
  match k with
  | 0 => "71b6"
  | _ => "e5c0"
  end.

(** With a key: one clip submitted, its frames extracted, the inference
    pending. *)
Definition awaitingInference : System :=
  orBoot (Some "key")
    (@run QNumber [FileSelected (Some [clip]) sampleUUID; EffectRun;
                   FramesSettled tenSeconds] (boot (Some "key"))).

(** * Properties *)

(** ** Frame extraction *)

Section DecodingFacts.
Context {JN : JsNumber}.

Lemma seekLoop_unfold (dec : Decoder) (interval : num) (n i : nat)
    (frames : list string) :
  seekLoop dec interval i n frames =
  (frames ++ map (fun k => render dec (nmul interval (of_nat k))) (seq i n),
   flat_map (iteration dec interval) (seq i n)).
Proof.
  revert i frames.
  induction n as [|n IH]; intros i frames; simpl.
  - now rewrite app_nil_r.
  - rewrite IH. rewrite <- app_assoc. reflexivity.
Qed.

Lemma seeks_app (l1 l2 : list DomEvent) :
  seeks (l1 ++ l2) = seeks l1 ++ seeks l2.
Proof.
  induction l1 as [|e l1 IH]; simpl; [reflexivity|].
  destruct e; simpl; now rewrite IH.
Qed.

Lemma seeks_iterations (dec : Decoder) (interval : num) (l : list nat) :
  seeks (flat_map (iteration dec interval) l) =
  map (fun k => nmul interval (of_nat k)) l.
Proof.
  induction l as [|k l IH]; simpl; [reflexivity|].
  now rewrite IH.
Qed.

Lemma serialized_iterations (dec : Decoder) (interval : num) (l : list nat)
    (rest : list DomEvent) :
  serialized false (flat_map (iteration dec interval) l ++ rest) =
  serialized false rest.
Proof.
  induction l as [|k l IH]; simpl; [reflexivity|].
  exact IH.
Qed.

(** C1: with a rendering context and a resource that loads with duration
    [D], [extractFrames] resolves with exactly [N] frames; the timestamps
    assigned to [currentTime] are [D/(N+1) * i] for [i = 1..N] in this
    order; each frame is the capture at the corresponding timestamp; and no
    seek is requested while the capture of the previous one is outstanding. *)
Theorem extractFrames_evenly_spaced (dec : Decoder) (f : File) (N : nat)
    (D : num) (w h : nat) :
  1 <= N ->
  context2d dec = true ->
  loadedmetadata dec = Some (D, w, h) ->
  exists frames log,
    extractFrames dec f N = (Resolved frames, log)
    /\ List.length frames = N
    /\ seeks log =
       map (fun i => nmul (ndiv D (of_nat (N + 1))) (of_nat i)) (seq 1 N)
    /\ frames = map (render dec) (seeks log)
    /\ serialized false log = true.
Proof.
  intros _ Hctx Hload.
  unfold extractFrames. rewrite Hctx, Hload. simpl negb. cbv iota.
  rewrite seekLoop_unfold. change ([] ++ ?l) with l.
  eexists. eexists. split; [reflexivity|].
  split; [now rewrite length_map, length_seq|].
  assert (Hs : seeks (CreateObjectURL f :: SetCanvasSize w h ::
                       flat_map (iteration dec (ndiv D (of_nat (N + 1))))
                         (seq 1 N) ++ [RevokeObjectURL])
               = map (fun i => nmul (ndiv D (of_nat (N + 1))) (of_nat i))
                   (seq 1 N)).
  { simpl. rewrite seeks_app, seeks_iterations. simpl. apply app_nil_r. }
  split; [exact Hs|].
  split.
  - rewrite Hs. now rewrite map_map.
  - simpl. now rewrite serialized_iterations.
Qed.

End DecodingFacts.

Lemma extractFrames_evenly_spaced_witness :
  exists frames log,
    @extractFrames QNumber tenSeconds clip 3 = (Resolved frames, log)
    /\ List.length frames = 3
    /\ seeks log =
       map (fun i => @nmul QNumber (@ndiv QNumber (10 # 1)%Q (@of_nat QNumber (3 + 1)))
                       (@of_nat QNumber i)) (seq 1 3)
    /\ frames = map (render tenSeconds) (seeks log)
    /\ serialized false log = true.
Proof.
  apply (@extractFrames_evenly_spaced QNumber tenSeconds clip 3 (10 # 1)%Q 640 360).
  - lia.
  - reflexivity.
  - reflexivity.
Defined.

(** ** Controls *)

Section ControlFacts.
Context {JN : JsNumber}.

(** C7: a second [stopProcessing] changes nothing after the first, and a
    second [pauseProcessing] changes nothing after the first: the component
    (flags, cursor, queue) and the rest of the event loop state are the
    same after one call and after two. *)
Theorem stop_pause_idempotent (s : AppComponent) (sys : System) :
  stopProcessing (stopProcessing s) = stopProcessing s
  /\ pauseProcessing (pauseProcessing s) = pauseProcessing s
  /\ run [StopProcessing; StopProcessing] sys = run [StopProcessing] sys
  /\ run [PauseProcessing; PauseProcessing] sys = run [PauseProcessing] sys.
Proof.
  repeat split.
Qed.

End ControlFacts.

(** ** Invariants of the component *)

Lemma distinct_NoDup (l : list string) : distinct l = true -> NoDup l.
Proof.
  induction l as [|x l IH]; simpl; intros H; constructor.
  - apply andb_prop in H. destruct H as [H _].
    intros Hin. apply negb_true_iff in H.
    assert (existsb (String.eqb x) l = true) as E.
    { apply existsb_exists. exists x. split; [exact Hin|apply String.eqb_refl]. }
    congruence.
  - apply IH. apply andb_prop in H. tauto.
Qed.

Lemma NoDup_distinct (l : list string) : NoDup l -> distinct l = true.
Proof.
  induction 1 as [|x l Hx _ IH]; simpl; [reflexivity|].
  rewrite IH, andb_true_r. apply negb_true_iff.
  destruct (existsb (String.eqb x) l) eqn:E; [|reflexivity].
  apply existsb_exists in E. destruct E as [y [Hy E]].
  apply String.eqb_eq in E. subst y. contradiction.
Qed.

(** An update of some items keeps what it does not write. *)
Lemma map_update_frame (B : Type) (h : VideoMetadata -> B)
    (P : VideoMetadata -> bool) (g : VideoMetadata -> VideoMetadata)
    (l : list VideoMetadata) :
  (forall v, h (g v) = h v) ->
  map h (map (fun v => if P v then g v else v) l) = map h l.
Proof.
  intros Hg. induction l as [|v l IH]; simpl; [reflexivity|].
  rewrite IH. destruct (P v); [rewrite Hg|]; reflexivity.
Qed.

Lemma idThumbnail_ids (l l' : list VideoMetadata) :
  map idThumbnail l' = map idThumbnail l -> map id l' = map id l.
Proof.
  intros E.
  assert (H : forall k, map id k = map fst (map idThumbnail k)).
  { intros k. rewrite map_map. reflexivity. }
  now rewrite !H, E.
Qed.

Lemma Forall_update (Q : VideoMetadata -> Prop) (P : VideoMetadata -> bool)
    (g : VideoMetadata -> VideoMetadata) (l : list VideoMetadata) :
  Forall Q l ->
  (forall v, In v l -> P v = true -> Q (g v)) ->
  Forall Q (map (fun v => if P v then g v else v) l).
Proof.
  intros Hl Hg. apply Forall_forall. intros x Hx.
  apply in_map_iff in Hx. destruct Hx as [v [<- Hv]].
  destruct (P v) eqn:E.
  - now apply Hg.
  - rewrite Forall_forall in Hl. now apply Hl.
Qed.

(** With unique identifiers an identifier names one item. *)
Lemma unique_by_id (l : list VideoMetadata) (v v' : VideoMetadata) :
  NoDup (map id l) -> In v l -> In v' l -> id v = id v' -> v = v'.
Proof.
  induction l as [|x l IH]; simpl; intros Hnd Hv Hv' E; [contradiction|].
  inversion Hnd as [|? ? Hx Hl]; subst.
  destruct Hv as [->|Hv], Hv' as [->|Hv']; trivial.
  - exfalso. apply Hx. rewrite E. now apply in_map.
  - exfalso. apply Hx. rewrite <- E. now apply in_map.
  - now apply IH.
Qed.

Lemma itemInvariant_failed (v : VideoMetadata) (m : string) :
  itemInvariant
    {| id := id v; file := file v; thumbnail := thumbnail v;
       status := failed; title := ""; keywords := [];
       errorMessage := Some m |}.
Proof.
  split; simpl; auto.
Qed.

Lemma itemInvariant_completed (v : VideoMetadata) (t : string)
    (ks : list string) :
  itemInvariant
    {| id := id v; file := file v; thumbnail := thumbnail v;
       status := completed; title := t; keywords := ks;
       errorMessage := None |}.
Proof.
  split; simpl; intros H; congruence.
Qed.

Lemma itemInvariant_processing (v : VideoMetadata) :
  itemInvariant v -> eligible (status v) = true ->
  itemInvariant
    {| id := id v; file := file v; thumbnail := thumbnail v;
       status := processing; title := title v; keywords := keywords v;
       errorMessage := None |}.
Proof.
  intros [_ H] He. split; simpl; intros H'; [congruence|].
  apply H. intros E. rewrite E in He. discriminate.
Qed.

Lemma itemInvariant_thumbnail (v : VideoMetadata) (th : option string) :
  itemInvariant v ->
  itemInvariant
    {| id := id v; file := file v; thumbnail := th;
       status := status v; title := title v; keywords := keywords v;
       errorMessage := errorMessage v |}.
Proof.
  intros H. exact H.
Qed.

Lemma catchBlock_invariant (video : VideoMetadata) (e : Thrown)
    (s : AppComponent) :
  componentInvariant s -> componentInvariant (catchBlock video e s).
Proof.
  intros [Hg Hi Hn Hf]. unfold catchBlock, updateVideoResult.
  constructor; simpl; trivial.
  - rewrite (map_update_frame id); trivial.
  - apply Forall_update; trivial.
    intros v _ _. apply itemInvariant_failed.
Qed.

Lemma completed_invariant (video : VideoMetadata) (m : Metadata)
    (s : AppComponent) :
  componentInvariant s ->
  componentInvariant
    (updateVideoResult (id video) completed (meta_title m) (meta_keywords m)
       None s).
Proof.
  intros [Hg Hi Hn Hf]. unfold updateVideoResult.
  constructor; simpl; trivial.
  - rewrite (map_update_frame id); trivial.
  - apply Forall_update; trivial.
    intros v _ _. apply itemInvariant_completed.
Qed.

Lemma processing_invariant (video : VideoMetadata) (s : AppComponent) :
  componentInvariant s ->
  In video (videos s) ->
  eligible (status video) = true ->
  componentInvariant (updateVideoStatus (id video) processing s).
Proof.
  intros [Hg Hi Hn Hf] Hin He. unfold updateVideoStatus.
  constructor; simpl; trivial.
  - rewrite (map_update_frame id); trivial.
  - apply Forall_update; trivial.
    intros v Hv E. apply String.eqb_eq in E.
    assert (v = video) as -> by (eapply unique_by_id; eauto).
    apply itemInvariant_processing; trivial.
    rewrite Forall_forall in Hf. now apply Hf.
Qed.

Lemma advance_invariant (s : AppComponent) (f : nat -> nat) :
  componentInvariant s -> componentInvariant (currentIndex_update f s).
Proof.
  intros [Hg Hi Hn Hf]. constructor; simpl; trivial.
Qed.

Lemma epilogue_invariant (s : AppComponent) :
  componentInvariant s -> componentInvariant (epilogue s).
Proof.
  intros [Hg Hi Hn Hf]. unfold epilogue.
  destruct (List.length (videos s) <=? currentIndex s);
    constructor; simpl; trivial.
Qed.

Lemma running_invariant (s : AppComponent) (b : bool) :
  componentInvariant s -> componentInvariant (processQueueRunning_set b s).
Proof.
  intros [Hg Hi Hn Hf]. constructor; simpl; trivial.
Qed.

Lemma whileLoop_invariant (fuel : nat) (s : AppComponent) :
  componentInvariant s ->
  lands (keeps s) (whileLoop fuel s).
Proof.
  revert s. induction fuel as [|fuel IH]; intros s Hs; simpl; [exact I|].
  destruct ((currentIndex s <? List.length (videos s)) && isProcessing s
            && negb (isPaused s)).
  - destruct (nth_error (videos s) (currentIndex s)) as [video|] eqn:E;
      simpl; [|now split].
    destruct (eligible (status video)) eqn:He; simpl.
    + split.
      * apply processing_invariant; trivial. eapply nth_error_In; eauto.
      * apply (map_update_frame idThumbnail). reflexivity.
    + specialize (IH (currentIndex_update S s) (advance_invariant S Hs)).
      exact IH.
  - simpl. split; [now apply epilogue_invariant|].
    unfold epilogue. now destruct (List.length (videos s) <=? currentIndex s).
Qed.

Lemma lands_impl (P Q : AppComponent -> Prop) (tr : Traversal) :
  (forall s, P s -> Q s) -> lands P tr -> lands Q tr.
Proof.
  intros H. destruct tr; simpl; auto.
Qed.

Lemma processQueue_loop_keeps (s : AppComponent) :
  componentInvariant s -> lands (keeps s) (processQueue_loop s).
Proof.
  intros Hs. apply whileLoop_invariant. exact Hs.
Qed.

Lemma processQueue_start_keeps (s : AppComponent) :
  componentInvariant s -> lands (keeps s) (processQueue_start s).
Proof.
  intros Hs. unfold processQueue_start.
  apply (processQueue_loop_keeps (running_invariant true Hs)).
Qed.

Lemma catchBlock_frame (video : VideoMetadata) (e : Thrown)
    (s : AppComponent) :
  map idThumbnail (videos (catchBlock video e s))
  = map idThumbnail (videos s).
Proof.
  unfold catchBlock, updateVideoResult. simpl.
  now apply (map_update_frame idThumbnail).
Qed.

Lemma onFramesSettled_keeps (video : VideoMetadata)
    (r : Settled (list string)) (s : AppComponent) :
  componentInvariant s -> lands (keeps s) (onFramesSettled video r s).
Proof.
  intros Hs. destruct r as [frames|e]; simpl.
  - now split.
  - eapply lands_impl;
      [|apply processQueue_loop_keeps, advance_invariant,
          catchBlock_invariant, Hs].
    intros s' [H1 H2]. split; [exact H1|].
    rewrite H2. simpl. apply catchBlock_frame.
Qed.

Lemma onMetadataSettled_keeps (video : VideoMetadata) (r : Settled Metadata)
    (s : AppComponent) :
  componentInvariant s -> lands (keeps s) (onMetadataSettled video r s).
Proof.
  intros Hs. destruct r as [m|e]; simpl.
  - eapply lands_impl;
      [|apply processQueue_loop_keeps, advance_invariant,
          completed_invariant, Hs].
    intros s' [H1 H2]. split; [exact H1|].
    rewrite H2. simpl. now apply (map_update_frame idThumbnail).
  - eapply lands_impl;
      [|apply processQueue_loop_keeps, advance_invariant,
          catchBlock_invariant, Hs].
    intros s' [H1 H2]. split; [exact H1|].
    rewrite H2. simpl. apply catchBlock_frame.
Qed.

Lemma startProcessing_invariant (s : AppComponent) :
  componentInvariant s -> componentInvariant (fst (startProcessing s)).
Proof.
  intros Hs. unfold startProcessing.
  destruct (apiKeyMissing s) eqn:E; [exact Hs|].
  destruct Hs as [Hg Hi Hn Hf]. constructor; simpl; trivial.
  intros H. congruence.
Qed.

Lemma stopProcessing_invariant (s : AppComponent) :
  componentInvariant s -> componentInvariant (stopProcessing s).
Proof.
  intros [Hg Hi Hn Hf]. constructor; simpl; trivial.
Qed.

Lemma paused_invariant (s : AppComponent) (b : bool) :
  componentInvariant s -> componentInvariant (isPaused_set b s).
Proof.
  intros [Hg Hi Hn Hf]. constructor; simpl; trivial.
Qed.

Lemma retryFailed_invariant (s : AppComponent) :
  componentInvariant s -> componentInvariant (fst (retryFailed s)).
Proof.
  intros Hs. unfold retryFailed.
  apply startProcessing_invariant. now apply advance_invariant.
Qed.

Lemma clearAll_invariant (s : AppComponent) :
  componentInvariant s -> componentInvariant (clearAll s).
Proof.
  intros [Hg Hi Hn Hf]. constructor; simpl; trivial; constructor.
Qed.

Lemma mapNew_ids (u : nat -> string) (fs : list File) (k : nat) :
  map id (mapNew u k fs) = map u (seq k (List.length fs)).
Proof.
  revert k. induction fs as [|f fs IH]; intros k; simpl; [reflexivity|].
  now rewrite IH.
Qed.

Lemma mapNew_items (u : nat -> string) (fs : list File) (k : nat) :
  Forall itemInvariant (mapNew u k fs).
Proof.
  revert k. induction fs as [|f fs IH]; intros k; simpl; constructor.
  - split; simpl; auto. intros H. congruence.
  - apply IH.
Qed.

Lemma newVideos_items (files : option (list File)) (u : nat -> string) :
  Forall itemInvariant (newVideos files u).
Proof.
  destruct files as [fs|]; simpl; [apply mapNew_items|constructor].
Qed.

Lemma thumbnail_invariant (video : VideoMetadata) (r : Settled string)
    (s : AppComponent) :
  componentInvariant s ->
  componentInvariant (fst (generateThumbnail_settled video r s))
  /\ map id (videos (fst (generateThumbnail_settled video r s)))
     = map id (videos s).
Proof.
  intros Hs. destruct r as [frame|e]; simpl; [|now split].
  destruct Hs as [Hg Hi Hn Hf]. split.
  - constructor; simpl; trivial.
    + rewrite (map_update_frame id); trivial.
    + apply Forall_update; trivial.
      intros v Hv _. apply itemInvariant_thumbnail.
      rewrite Forall_forall in Hf. now apply Hf.
  - now apply (map_update_frame id).
Qed.

(** ** Invariants of the event loop *)

Section EventLoopFacts.
Context {JN : JsNumber}.

Lemma boot_invariant (API_KEY : option string) :
  systemInvariant (boot API_KEY).
Proof.
  constructor; simpl.
  - constructor; simpl; trivial; try constructor.
  - intros x [].
  - reflexivity.
  - intros x [].
  - constructor.
  - intros p [].
Qed.

Lemma with_app_invariant (s : AppComponent) (sys : System) :
  systemInvariant sys ->
  componentInvariant s ->
  videos s = videos (app sys) ->
  systemInvariant (with_app s sys).
Proof.
  intros [Ha Hi Hd Hji Hjd Hjp] Hs E. constructor; simpl; trivial;
    now rewrite E.
Qed.

Lemma install_invariant (tr : Traversal) (sys sys' : System) :
  systemInvariant sys ->
  lands (keeps (app sys)) tr ->
  install tr sys = Some sys' ->
  systemInvariant sys'.
Proof.
  intros [Ha Hi Hd Hji Hjd Hjp] Hl E.
  destruct tr as [s t|s|s e|]; simpl in *; try discriminate;
    injection E as <-; destruct Hl as [H1 H2];
    constructor; simpl; trivial;
    solve [now rewrite (idThumbnail_ids _ _ H2) | now rewrite H2].
Qed.

Lemma fresh_not_issued (seen new : list string) (a : string) :
  distinct (seen ++ new) = true -> In a seen -> ~ In a new.
Proof.
  intros Hd Hs Hn. apply distinct_NoDup in Hd.
  induction seen as [|x l IH]; simpl in *; [contradiction|].
  inversion Hd as [|? ? Hx Hl]; subst.
  destruct Hs as [->|Hs].
  - apply Hx. apply in_or_app. now right.
  - now apply IH.
Qed.

Lemma newVideos_thumbnail (files : option (list File)) (u : nat -> string)
    (v : VideoMetadata) :
  In v (newVideos files u) -> thumbnail v = None.
Proof.
  destruct files as [fs|]; simpl; [|contradiction].
  generalize 0. induction (filter isVideo fs) as [|f l IH]; intros k;
    simpl; [contradiction|].
  intros [<-|H]; [reflexivity|]. eapply IH; eauto.
Qed.

Lemma onFileSelected_videos (files : option (list File)) (u : nat -> string)
    (s : AppComponent) :
  videos (fst (onFileSelected files u s)) = videos s ++ newVideos files u.
Proof.
  destruct files as [fs|]; simpl; [|now rewrite app_nil_r].
  destruct (negb (isProcessing s)); simpl; trivial.
  unfold startProcessing. now destruct (apiKeyMissing _).
Qed.

Lemma onFileSelected_invariant (files : option (list File))
    (u : nat -> string) (sys : System) :
  systemInvariant sys ->
  distinct (issued sys ++ map id (newVideos files u)) = true ->
  componentInvariant (fst (onFileSelected files u (app sys))).
Proof.
  intros [Ha Hi Hd Hji Hjd Hjp] Hfresh.
  destruct files as [fs|]; simpl; [|exact Ha].
  set (vs := mapNew u 0 (filter isVideo fs)) in *.
  assert (Hs1 : componentInvariant
                  (videos_update (fun current => current ++ vs) (app sys))).
  { destruct Ha as [Hg Hidle Hn Hf]. constructor; simpl; trivial.
    - rewrite map_app. apply NoDup_app; trivial.
      + apply distinct_NoDup in Hfresh.
        now apply NoDup_app_remove_l in Hfresh.
      + intros a Ha1. eapply fresh_not_issued; eauto.
    - apply Forall_app. split; [exact Hf|apply mapNew_items]. }
  destruct (negb (isProcessing (app sys))); simpl; trivial.
  now apply startProcessing_invariant.
Qed.

Lemma thumbnail_settled_pending (video : VideoMetadata) (r : Settled string)
    (s : AppComponent) (ids : list string) :
  ~ In (id video) ids ->
  (forall p, In p (map idThumbnail (videos s)) -> In (fst p) ids ->
             snd p = None) ->
  forall p,
    In p (map idThumbnail (videos (fst (generateThumbnail_settled video r s)))) ->
    In (fst p) ids -> snd p = None.
Proof.
  intros Hv Hp p Hin Hid. destruct r as [frame|e]; simpl in Hin;
    [|now apply Hp].
  rewrite map_map in Hin. apply in_map_iff in Hin.
  destruct Hin as [v [<- Hin]].
  destruct (id v =? id video)%string eqn:E.
  - apply String.eqb_eq in E. simpl in Hid. rewrite E in Hid. contradiction.
  - apply Hp; trivial. apply in_map_iff. now exists v.
Qed.

Lemma removed_job (jobs : list VideoMetadata) (job : nat)
    (video : VideoMetadata) :
  nth_error jobs job = Some video ->
  NoDup (map id jobs) ->
  ~ In (id video) (map id (firstn job jobs ++ skipn (S job) jobs))
  /\ NoDup (map id (firstn job jobs ++ skipn (S job) jobs))
  /\ incl (map id (firstn job jobs ++ skipn (S job) jobs)) (map id jobs).
Proof.
  intros Hn Hd.
  apply nth_error_split in Hn. destruct Hn as [l1 [l2 [-> <-]]].
  rewrite firstn_app, Nat.sub_diag, firstn_all, app_nil_r.
  replace (S (List.length l1)) with (List.length l1 + 1) by lia.
  rewrite skipn_app, skipn_all2 by lia.
  replace (List.length l1 + 1 - List.length l1) with 1 by lia.
  simpl. rewrite !map_app in *. simpl in *. repeat split.
  - now apply NoDup_remove_2 in Hd.
  - now apply NoDup_remove_1 in Hd.
  - intros a Ha. apply in_app_or in Ha. apply in_or_app. simpl. tauto.
Qed.

Lemma exec_invariant (a : Action) (sys sys' : System) :
  systemInvariant sys -> exec a sys = Some sys' -> systemInvariant sys'.
Proof.
  intros Hsys E. pose proof Hsys as [Ha Hi Hd Hji Hjd Hjp].
  destruct a; simpl in E.
  - destruct (distinct _) eqn:Hfresh; [|discriminate]. injection E as <-.
    pose proof (onFileSelected_invariant files randomUUID Hsys Hfresh) as H1.
    pose proof (onFileSelected_videos files randomUUID (app sys)) as H2.
    constructor; simpl; trivial.
    + rewrite H2, map_app. apply incl_app.
      * apply incl_appl. exact Hi.
      * apply incl_appr. apply incl_refl.
    + rewrite map_app. apply incl_app.
      * apply incl_appl. exact Hji.
      * apply incl_appr. apply incl_refl.
    + rewrite map_app. apply NoDup_app; trivial.
      * apply distinct_NoDup in Hfresh.
        now apply NoDup_app_remove_l in Hfresh.
      * intros x Hx. apply Hji in Hx. eapply fresh_not_issued; eauto.
    + intros p Hp Hid. rewrite H2, map_app in Hp.
      apply in_app_or in Hp. destruct Hp as [Hp|Hp].
      * apply Hjp; trivial.
        rewrite map_app in Hid. apply in_app_or in Hid.
        destruct Hid as [Hid|Hid]; trivial.
        exfalso. apply in_map_iff in Hp. destruct Hp as [v [<- Hv]].
        apply (@fresh_not_issued _ _ (id v) Hfresh); trivial.
        apply Hi. now apply in_map.
      * apply in_map_iff in Hp. destruct Hp as [v [<- Hv]].
        simpl. eapply newVideos_thumbnail; eauto.
  - injection E as <-. apply with_app_invariant; trivial.
    + now apply startProcessing_invariant.
    + unfold startProcessing. now destruct (apiKeyMissing _).
  - injection E as <-. apply with_app_invariant; trivial.
    now apply paused_invariant.
  - injection E as <-. apply with_app_invariant; trivial.
    now apply paused_invariant.
  - injection E as <-. apply with_app_invariant; trivial.
    now apply stopProcessing_invariant.
  - injection E as <-. apply with_app_invariant; trivial.
    + now apply retryFailed_invariant.
    + unfold retryFailed, startProcessing. simpl.
      now destruct (apiKeyMissing _).
  - injection E as <-. constructor; simpl; trivial.
    + now apply clearAll_invariant.
    + intros x [].
    + intros p [].
  - now injection E as <-.
  - destruct (_ && _); [|now injection E as <-].
    eapply install_invariant; eauto.
    now apply processQueue_start_keeps.
  - destruct (task sys) as [[video|video frames]|]; try discriminate.
    eapply install_invariant; eauto.
    now apply onFramesSettled_keeps.
  - destruct (task sys) as [[video|video frames]|]; try discriminate.
    eapply install_invariant; eauto.
    now apply onMetadataSettled_keeps.
  - destruct (nth_error _ _) as [video|] eqn:Hjob; [|discriminate].
    injection E as <-.
    destruct (thumbnail_invariant video
                (fst (extractSingleFrame dec (file video) (of_nat 1))) Ha)
      as [H1 H2].
    destruct (removed_job _ _ Hjob Hjd) as [R1 [R2 R3]].
    constructor; simpl; trivial.
    + now rewrite H2.
    + intros x Hx. apply Hji. now apply R3.
    + apply thumbnail_settled_pending; trivial.
      intros p Hp Hid. apply Hjp; trivial. now apply R3.
Qed.

Lemma run_invariant (acts : list Action) (sys sys' : System) :
  systemInvariant sys -> run acts sys = Some sys' -> systemInvariant sys'.
Proof.
  revert sys. induction acts as [|a acts IH]; intros sys Hsys E; simpl in E.
  - now injection E as <-.
  - destruct (exec a sys) as [sys1|] eqn:E1; [|discriminate].
    eapply IH; [|exact E]. eapply exec_invariant; eauto.
Qed.

Lemma reachable_invariant (API_KEY : option string) (sys : System) :
  reachable API_KEY sys -> systemInvariant sys.
Proof.
  intros [acts E]. eapply run_invariant; [apply boot_invariant|exact E].
Qed.

End EventLoopFacts.

(** ** Completed items under interleaving *)

Lemma frameCompleted_refl (l : list VideoMetadata) : frameCompleted l l.
Proof.
  intros j v Hj _. now exists v.
Qed.

Lemma frameCompleted_trans (l1 l2 l3 : list VideoMetadata) :
  frameCompleted l1 l2 -> frameCompleted l2 l3 -> frameCompleted l1 l3.
Proof.
  intros H12 H23 j v Hj Hs.
  destruct (H12 j v Hj Hs) as [v2 [Hj2 E2]].
  assert (Hs2 : status v2 = completed).
  { unfold core in E2. injection E2 as _ _ E _ _ _. congruence. }
  destruct (H23 j v2 Hj2 Hs2) as [v3 [Hj3 E3]].
  exists v3. split; [exact Hj3|congruence].
Qed.

Lemma frameCompleted_app (l new : list VideoMetadata) :
  frameCompleted l (l ++ new).
Proof.
  intros j v Hj _. exists v. split; [|reflexivity].
  rewrite nth_error_app1; trivial. apply nth_error_Some. congruence.
Qed.

(** An update that writes no completed item, or writes only thumbnails. *)
Lemma frameCompleted_update (P : VideoMetadata -> bool)
    (g : VideoMetadata -> VideoMetadata) (l : list VideoMetadata) :
  (forall v, In v l -> P v = true ->
             status v <> completed \/ core (g v) = core v) ->
  frameCompleted l (map (fun v => if P v then g v else v) l).
Proof.
  intros H j v Hj Hs. rewrite nth_error_map, Hj. simpl.
  eexists. split; [reflexivity|].
  destruct (P v) eqn:E; [|reflexivity].
  destruct (H v (nth_error_In _ _ Hj) E) as [Hn|Hc]; [contradiction|exact Hc].
Qed.

Lemma inFlight_update (P : VideoMetadata -> bool)
    (g : VideoMetadata -> VideoMetadata) (s : AppComponent)
    (video : VideoMetadata) :
  (forall v, id (g v) = id v /\ status (g v) = status v) ->
  inFlight s video ->
  inFlight (videos_update (map (fun v => if P v then g v else v)) s) video.
Proof.
  intros Hg [Hr Hp]. split; [exact Hr|].
  intros v' Hv' Hid. simpl in Hv'. apply in_map_iff in Hv'.
  destruct Hv' as [v [<- Hv]]. destruct (P v).
  - destruct (Hg v) as [E1 E2]. rewrite E2. apply Hp; trivial.
    now rewrite <- E1.
  - now apply Hp.
Qed.

Lemma whileLoop_stepped (known : list string) (fuel : nat)
    (s : AppComponent) :
  NoDup (map id (videos s)) ->
  incl (map id (videos s)) known ->
  processQueueRunning s = true ->
  List.length (videos s) - currentIndex s < fuel ->
  stepped known (videos s) (whileLoop fuel s).
Proof.
  revert s. induction fuel as [|fuel IH]; intros s Hnd Hk Hr Hf; [lia|].
  simpl.
  destruct (currentIndex s <? List.length (videos s)) eqn:E; simpl.
  - apply Nat.ltb_lt in E.
    destruct (isProcessing s && negb (isPaused s)).
    + destruct (nth_error (videos s) (currentIndex s)) as [video|] eqn:En;
        [|apply nth_error_None in En; lia].
      pose proof (nth_error_In _ _ En) as Hin.
      destruct (eligible (status video)) eqn:He.
      * simpl. repeat split; trivial.
        -- intros v' Hv' Hid. apply in_map_iff in Hv'.
           destruct Hv' as [v [<- Hv]].
           destruct (id v =? id video)%string eqn:Ev; [reflexivity|].
           apply String.eqb_neq in Ev. contradiction.
        -- apply Hk. now apply in_map.
        -- apply frameCompleted_update. intros v Hv Ev. left.
           apply String.eqb_eq in Ev.
           assert (v = video) as -> by (eapply unique_by_id; eauto).
           intros Hc. rewrite Hc in He. discriminate.
      * apply (IH (currentIndex_update S s)); trivial. simpl. lia.
    + simpl. split; [reflexivity|].
      unfold epilogue.
      destruct (List.length (videos s) <=? currentIndex s);
        apply frameCompleted_refl.
  - split; [reflexivity|].
    unfold epilogue.
    destruct (List.length (videos s) <=? currentIndex s);
      apply frameCompleted_refl.
Qed.

Lemma processQueue_loop_stepped (known : list string) (s : AppComponent) :
  NoDup (map id (videos s)) ->
  incl (map id (videos s)) known ->
  processQueueRunning s = true ->
  stepped known (videos s) (processQueue_loop s).
Proof.
  intros Hnd Hk Hr. apply whileLoop_stepped; trivial. lia.
Qed.

Lemma stepped_after (known : list string) (l l1 : list VideoMetadata)
    (tr : Traversal) :
  frameCompleted l l1 -> stepped known l1 tr -> stepped known l tr.
Proof.
  intros Hf. destruct tr as [s t|s|s e|]; simpl; trivial.
  - intros [H1 [H2 H3]]. repeat split; try apply H1; trivial.
    eapply frameCompleted_trans; eauto.
  - intros [H1 H2]. split; trivial. eapply frameCompleted_trans; eauto.
Qed.

(** Writing the result of the in-flight item and resuming the loop. *)
Lemma result_stepped (known : list string) (video : VideoMetadata)
    (st : Status) (t : string) (ks : list string) (e : option string)
    (s : AppComponent) :
  NoDup (map id (videos s)) ->
  incl (map id (videos s)) known ->
  inFlight s video ->
  stepped known (videos s)
    (processQueue_loop
       (currentIndex_update S (updateVideoResult (id video) st t ks e s))).
Proof.
  intros Hnd Hk [Hr Hp].
  apply stepped_after
    with (l1 := videos (currentIndex_update S
                          (updateVideoResult (id video) st t ks e s))).
  - simpl. apply frameCompleted_update. intros v Hv Ev. left.
    apply String.eqb_eq in Ev. rewrite (Hp v Hv Ev). discriminate.
  - apply processQueue_loop_stepped; simpl; trivial;
      now rewrite (map_update_frame id).
Qed.

Lemma onFramesSettled_stepped (known : list string) (video : VideoMetadata)
    (r : Settled (list string)) (s : AppComponent) :
  NoDup (map id (videos s)) ->
  incl (map id (videos s)) known ->
  In (id video) known ->
  inFlight s video ->
  stepped known (videos s) (onFramesSettled video r s).
Proof.
  intros Hnd Hk Hin Hfl. destruct r as [frames|e]; simpl.
  - repeat split; try apply Hfl; trivial. apply frameCompleted_refl.
  - now apply result_stepped.
Qed.

Lemma onMetadataSettled_stepped (known : list string)
    (video : VideoMetadata) (r : Settled Metadata) (s : AppComponent) :
  NoDup (map id (videos s)) ->
  incl (map id (videos s)) known ->
  inFlight s video ->
  stepped known (videos s) (onMetadataSettled video r s).
Proof.
  intros Hnd Hk Hfl. destruct r as [m|e]; simpl; now apply result_stepped.
Qed.

Lemma whileLoop_caught (error : Thrown) (video : VideoMetadata) (i : nat)
    (fuel : nat) (s : AppComponent) :
  i < currentIndex s ->
  (forall v, In v (videos s) -> id v = id video -> failedWith error v) ->
  List.length (videos s) - currentIndex s < fuel ->
  caught error video i (whileLoop fuel s).
Proof.
  revert s. induction fuel as [|fuel IH]; intros s Hi Hf Hfuel; [lia|].
  simpl.
  destruct (currentIndex s <? List.length (videos s)) eqn:E; simpl.
  - apply Nat.ltb_lt in E.
    destruct (isProcessing s && negb (isPaused s)).
    + destruct (nth_error (videos s) (currentIndex s)) as [v0|] eqn:En;
        [|apply nth_error_None in En; lia].
      destruct (eligible (status v0)).
      * simpl. split; [exact Hi|].
        intros v' Hv' Hid. apply in_map_iff in Hv'.
        destruct Hv' as [v [<- Hv]].
        destruct (id v =? id v0)%string eqn:Ev.
        -- right. apply String.eqb_eq in Ev. simpl in Hid.
           split; [congruence|reflexivity].
        -- left. now apply Hf.
      * apply IH; simpl; trivial; lia.
    + simpl. split.
      * unfold epilogue.
        now destruct (List.length (videos s) <=? currentIndex s).
      * unfold epilogue.
        now destruct (List.length (videos s) <=? currentIndex s).
  - split.
    + unfold epilogue.
      now destruct (List.length (videos s) <=? currentIndex s).
    + unfold epilogue.
      now destruct (List.length (videos s) <=? currentIndex s).
Qed.

(** The [catch] block followed by the rest of the loop. *)
Lemma catch_resumed (error : Thrown) (video : VideoMetadata)
    (s : AppComponent) :
  caught error video (currentIndex s)
    (processQueue_loop (currentIndex_update S (catchBlock video error s))).
Proof.
  apply whileLoop_caught; simpl; try lia.
  intros v' Hv' Hid. apply in_map_iff in Hv'. destruct Hv' as [v [<- Hv]].
  destruct (id v =? id video)%string eqn:Ev.
  - repeat split.
  - apply String.eqb_neq in Ev. simpl in Hid. contradiction.
Qed.

Section InterleavingFacts.
Context {JN : JsNumber}.

Lemma boot_taskInvariant (API_KEY : option string) :
  taskInvariant (boot API_KEY).
Proof.
  constructor; simpl; [reflexivity|discriminate].
Qed.

Lemma install_stepped (tr : Traversal) (sys sys' : System) :
  stepped (issued sys) (videos (app sys)) tr ->
  install tr sys = Some sys' ->
  taskInvariant sys'
  /\ frameCompleted (videos (app sys)) (videos (app sys')).
Proof.
  intros Hs E. destruct tr as [s t|s|s e|]; simpl in *;
    try contradiction; injection E as <-.
  - destruct Hs as [H1 [H2 H3]]. split; trivial.
    constructor; simpl; [discriminate|].
    intros t' Et. injection Et as <-. now split.
  - destruct Hs as [H1 H2]. split; trivial.
    constructor; simpl; [trivial|discriminate].
Qed.

(** A control that leaves the queue and the reentrancy guard alone. *)
Lemma with_app_taskInvariant (s : AppComponent) (sys : System) :
  taskInvariant sys ->
  videos s = videos (app sys) ->
  processQueueRunning s = processQueueRunning (app sys) ->
  taskInvariant (with_app s sys)
  /\ frameCompleted (videos (app sys)) (videos s).
Proof.
  intros [Hi Hb] Ev Er. split; [|rewrite Ev; apply frameCompleted_refl].
  constructor; simpl.
  - intros Ht. rewrite Er. now apply Hi.
  - intros t Ht. destruct (Hb t Ht) as [[H1 H2] H3].
    repeat split; trivial; [now rewrite Er|now rewrite Ev].
Qed.

Lemma startProcessing_same (s : AppComponent) :
  videos (fst (startProcessing s)) = videos s
  /\ processQueueRunning (fst (startProcessing s)) = processQueueRunning s.
Proof.
  unfold startProcessing. now destruct (apiKeyMissing s).
Qed.

(** One turn of the event loop other than [clearAll] keeps the task
    invariant and the completed items. *)
Lemma exec_stepped (a : Action) (sys sys' : System) :
  systemInvariant sys ->
  taskInvariant sys ->
  exec a sys = Some sys' ->
  taskInvariant sys'
  /\ (isClearAll a = false ->
      frameCompleted (videos (app sys)) (videos (app sys'))).
Proof.
  intros Hsys Htask E. pose proof Hsys as [Ha Hi Hd Hji Hjd Hjp].
  pose proof Htask as [Hidle Hbusy].
  destruct a; simpl in E.
  - (* files *)
    destruct (distinct _) eqn:Hfresh; [|discriminate]. injection E as <-.
    pose proof (onFileSelected_videos files randomUUID (app sys)) as Hv.
    assert (Hr : processQueueRunning
                   (fst (onFileSelected files randomUUID (app sys)))
                 = processQueueRunning (app sys)).
    { destruct files as [fs|]; simpl; trivial.
      destruct (negb (isProcessing (app sys))); simpl; trivial.
      unfold startProcessing. now destruct (apiKeyMissing _). }
    split.
    + constructor; simpl.
      * intros Ht. rewrite Hr. now apply Hidle.
      * intros t Ht. destruct (Hbusy t Ht) as [[H1 H2] H3].
        repeat split.
        -- now rewrite Hr.
        -- intros v Hin Hid. rewrite Hv in Hin.
           apply in_app_or in Hin. destruct Hin as [Hin|Hin].
           ++ now apply H2.
           ++ exfalso.
              apply (@fresh_not_issued _ _ (id (task_video t)) Hfresh);
                trivial.
              rewrite <- Hid. now apply in_map.
        -- apply in_or_app. now left.
    + intros _. cbn [app]. rewrite Hv. apply frameCompleted_app.
  - (* start *)
    injection E as <-.
    destruct (startProcessing_same (app sys)) as [Ev Er].
    destruct (with_app_taskInvariant (fst (startProcessing (app sys)))
                Htask Ev Er) as [H1 H2].
    split; trivial.
  - injection E as <-.
    destruct (with_app_taskInvariant (pauseProcessing (app sys)) Htask
                eq_refl eq_refl) as [H1 H2]. split; trivial.
  - injection E as <-.
    destruct (with_app_taskInvariant (resumeProcessing (app sys)) Htask
                eq_refl eq_refl) as [H1 H2]. split; trivial.
  - injection E as <-.
    destruct (with_app_taskInvariant (stopProcessing (app sys)) Htask
                eq_refl eq_refl) as [H1 H2]. split; trivial.
  - (* retry *)
    injection E as <-.
    destruct (startProcessing_same (currentIndex_set 0 (app sys)))
      as [Ev Er].
    destruct (with_app_taskInvariant (fst (retryFailed (app sys))) Htask
                Ev Er) as [H1 H2]. split; trivial.
  - (* clear *)
    injection E as <-. split; [|discriminate].
    constructor; simpl.
    + exact Hidle.
    + intros t Ht. destruct (Hbusy t Ht) as [[H1 H2] H3].
      repeat split; trivial. intros v [].
  - injection E as <-. split; trivial. intros _. apply frameCompleted_refl.
  - (* effect *)
    destruct (isProcessing (app sys) && negb (isPaused (app sys))
              && negb (processQueueRunning (app sys))) eqn:Hen.
    + assert (Hst : stepped (issued sys) (videos (app sys))
                      (processQueue_start (app sys))).
      { unfold processQueue_start.
        apply (@processQueue_loop_stepped (issued sys)
                 (processQueueRunning_set true (app sys))); trivial.
        apply Ha. }
      destruct (install_stepped _ _ Hst E) as [H1 H2]. split; trivial.
    + injection E as <-. split; trivial.
      intros _. apply frameCompleted_refl.
  - (* frames *)
    destruct (task sys) as [[video|video frames]|] eqn:Et; try discriminate.
    destruct (Hbusy _ eq_refl) as [Hfl Hin].
    assert (Hst : stepped (issued sys) (videos (app sys))
                    (onFramesSettled video
                       (fst (extractFrames dec (file video) 8)) (app sys))).
    { apply onFramesSettled_stepped; trivial. apply Ha. }
    destruct (install_stepped _ _ Hst E) as [H1 H2]. split; trivial.
  - (* metadata *)
    destruct (task sys) as [[video|video frames]|] eqn:Et; try discriminate.
    destruct (Hbusy _ eq_refl) as [Hfl Hin].
    assert (Hst : stepped (issued sys) (videos (app sys))
                    (onMetadataSettled video
                       (generateMetadataFromFrames (geminiService (app sys))
                          frames reply) (app sys))).
    { apply onMetadataSettled_stepped; trivial. apply Ha. }
    destruct (install_stepped _ _ Hst E) as [H1 H2]. split; trivial.
  - (* thumbnail *)
    destruct (nth_error _ _) as [video|] eqn:Hjob; [|discriminate].
    injection E as <-.
    destruct (fst (extractSingleFrame dec (file video) (of_nat 1)))
      as [frame|e]; simpl.
    + split.
      * constructor; simpl.
        -- exact Hidle.
        -- intros t Ht. destruct (Hbusy t Ht) as [Hfl Hin].
           split; trivial.
           apply (@inFlight_update _ _ (app sys)); trivial.
           intros v. now split.
      * intros _. apply frameCompleted_update. intros v _ _. now right.
    + split.
      * constructor; simpl; trivial.
      * intros _. apply frameCompleted_refl.
Qed.

Lemma run_stepped (acts : list Action) (sys sys' : System) :
  systemInvariant sys ->
  taskInvariant sys ->
  run acts sys = Some sys' ->
  systemInvariant sys' /\ taskInvariant sys'
  /\ (noClear acts = true ->
      frameCompleted (videos (app sys)) (videos (app sys'))).
Proof.
  revert sys. induction acts as [|a acts IH]; intros sys Hs Ht E;
    simpl in E.
  - injection E as <-. split; [exact Hs|]. split; [exact Ht|].
    intros _. apply frameCompleted_refl.
  - destruct (exec a sys) as [sys1|] eqn:E1; [|discriminate].
    pose proof (exec_invariant a Hs E1) as Hs1.
    destruct (exec_stepped a Hs Ht E1) as [Ht1 Hf1].
    destruct (IH sys1 Hs1 Ht1 E) as [Hs' [Ht' Hf']].
    split; [exact Hs'|]. split; [exact Ht'|].
    intros Hn. simpl in Hn. apply andb_prop in Hn. destruct Hn as [Hn1 Hn2].
    apply negb_true_iff in Hn1.
    eapply frameCompleted_trans; eauto.
Qed.

Lemma reachable_taskInvariant (API_KEY : option string) (sys : System) :
  reachable API_KEY sys -> systemInvariant sys /\ taskInvariant sys.
Proof.
  intros [acts E].
  destruct (run_stepped acts (boot_invariant API_KEY)
              (boot_taskInvariant API_KEY) E) as [H1 [H2 _]].
  now split.
Qed.

End InterleavingFacts.

(** ** Reachable states: the start gate and the item invariant *)

Section ReachableStates.
Context {JN : JsNumber}.

(** C2: in every reachable state whose inference client is unconfigured, a
    start request is rejected with an alert and returns the component as it
    was (so [isPaused], the cursor and every item are unchanged), the event
    loop state is unchanged as well, and [isProcessing] is false before and
    after. *)
Theorem startProcessing_unconfigured (API_KEY : option string) (sys : System) :
  reachable API_KEY sys ->
  isConfigured (geminiService (app sys)) = false ->
  startProcessing (app sys) = (app sys, rejection)
  /\ exec StartProcessing sys = Some sys
  /\ isProcessing (app sys) = false
  /\ isProcessing (fst (startProcessing (app sys))) = false
  /\ map status (videos (fst (startProcessing (app sys))))
     = map status (videos (app sys)).
Proof.
  intros Hr Hc. apply reachable_invariant in Hr.
  destruct Hr as [[Hg Hi _ _] _ _ _ _ _].
  assert (Hm : apiKeyMissing (app sys) = true) by (now rewrite Hg, Hc).
  assert (E : startProcessing (app sys) = (app sys, rejection)).
  { unfold startProcessing. now rewrite Hm. }
  split; [exact E|]. split.
  - simpl. rewrite E. now destruct sys.
  - rewrite E. simpl. auto.
Qed.

(** C10: in every reachable state whose inference client is unconfigured,
    [retryFailed] is rejected with an alert and changes the cursor to 0 and
    nothing else: [isProcessing] is false before and after, [isPaused] and
    the items are as before; when the cursor was not 0 the component has
    changed although the start was rejected. *)
Theorem retryFailed_unconfigured (API_KEY : option string) (sys : System) :
  reachable API_KEY sys ->
  isConfigured (geminiService (app sys)) = false ->
  retryFailed (app sys) = (currentIndex_set 0 (app sys), rejection)
  /\ currentIndex (fst (retryFailed (app sys))) = 0
  /\ isProcessing (app sys) = false
  /\ isProcessing (fst (retryFailed (app sys))) = false
  /\ isPaused (fst (retryFailed (app sys))) = isPaused (app sys)
  /\ videos (fst (retryFailed (app sys))) = videos (app sys)
  /\ (currentIndex (app sys) <> 0 -> fst (retryFailed (app sys)) <> app sys).
Proof.
  intros Hr Hc. apply reachable_invariant in Hr.
  destruct Hr as [[Hg Hi _ _] _ _ _ _ _].
  assert (Hm : apiKeyMissing (app sys) = true) by (now rewrite Hg, Hc).
  assert (E : retryFailed (app sys) = (currentIndex_set 0 (app sys), rejection)).
  { unfold retryFailed, startProcessing. simpl. now rewrite Hm. }
  rewrite E. simpl. repeat split; auto.
  intros Hne Heq. apply Hne. now rewrite <- Heq.
Qed.

(** C8: in every reachable state every queued item satisfies
    [itemInvariant] (an error message only when failed, a title or keywords
    only when completed), and so does every item after any further event:
    a user operation, the effect, a settled extraction, inference or
    thumbnail. *)
Theorem items_invariant (API_KEY : option string) (sys : System) :
  reachable API_KEY sys ->
  Forall itemInvariant (videos (app sys))
  /\ forall a sys', exec a sys = Some sys' ->
                    Forall itemInvariant (videos (app sys')).
Proof.
  intros Hr. apply reachable_invariant in Hr. split.
  - apply Hr.
  - intros a sys' E. apply (exec_invariant a Hr) in E. apply E.
Qed.

End ReachableStates.

Lemma unconfiguredStopped_reachable :
  @reachable QNumber None unconfiguredStopped.
Proof.
  exists [FileSelected (Some [clip]) sampleUUID; StopProcessing].
  reflexivity.
Defined.

Lemma afterFailure_reachable : @reachable QNumber (Some "key") afterFailure.
Proof.
  exists [FileSelected (Some [clip]) sampleUUID; EffectRun;
          FramesSettled broken].
  reflexivity.
Defined.

Lemma startProcessing_unconfigured_witness :
  startProcessing (app unconfiguredStopped)
  = (app unconfiguredStopped, rejection)
  /\ @exec QNumber StartProcessing unconfiguredStopped
     = Some unconfiguredStopped
  /\ isProcessing (app unconfiguredStopped) = false
  /\ isProcessing (fst (startProcessing (app unconfiguredStopped))) = false
  /\ map status (videos (fst (startProcessing (app unconfiguredStopped))))
     = map status (videos (app unconfiguredStopped)).
Proof.
  apply (@startProcessing_unconfigured QNumber None unconfiguredStopped).
  - exact unconfiguredStopped_reachable.
  - reflexivity.
Defined.

Lemma retryFailed_unconfigured_witness :
  currentIndex (app unconfiguredStopped) = 1
  /\ currentIndex (fst (retryFailed (app unconfiguredStopped))) = 0.
Proof.
  split; [reflexivity|].
  apply (@retryFailed_unconfigured QNumber None unconfiguredStopped).
  - exact unconfiguredStopped_reachable.
  - reflexivity.
Defined.

Lemma items_invariant_witness :
  map status (videos (app afterFailure)) = [failed]
  /\ Forall itemInvariant (videos (app afterFailure)).
Proof.
  split; [reflexivity|].
  apply (@items_invariant QNumber (Some "key") afterFailure).
  exact afterFailure_reachable.
Defined.

(** ** The traversal *)

Lemma map_unchanged (P : VideoMetadata -> bool)
    (g : VideoMetadata -> VideoMetadata) (l : list VideoMetadata) :
  (forall v, In v l -> P v = false) ->
  map (fun v => if P v then g v else v) l = l.
Proof.
  induction l as [|x l IH]; intros H; simpl; [reflexivity|].
  rewrite (H x (or_introl eq_refl)). f_equal.
  apply IH. intros v Hv. apply H. now right.
Qed.

(** With unique identifiers an update by identifier rewrites one item. *)
Lemma update_at (pre post : list VideoMetadata) (v : VideoMetadata)
    (g : VideoMetadata -> VideoMetadata) :
  NoDup (map id (pre ++ v :: post)) ->
  map (fun x => if (id x =? id v)%string then g x else x) (pre ++ v :: post)
  = pre ++ g v :: post.
Proof.
  intros Hnd. rewrite map_app. simpl. rewrite String.eqb_refl.
  assert (Hother : forall x, In x (pre ++ post) -> (id x =? id v)%string = false).
  { intros x Hx. apply String.eqb_neq. intros E.
    rewrite map_app in Hnd. simpl in Hnd.
    apply NoDup_remove_2 in Hnd. apply Hnd.
    rewrite <- E, <- map_app. now apply in_map. }
  rewrite !map_unchanged; trivial; intros x Hx; apply Hother, in_or_app; auto.
Qed.

Lemma processQueue_loop_unfold (s : AppComponent) :
  processQueue_loop s =
  if (currentIndex s <? List.length (videos s)) && isProcessing s
     && negb (isPaused s) then
    match nth_error (videos s) (currentIndex s) with
    | Some video =>
        if eligible (status video) then
          Suspended (updateVideoStatus (id video) processing s)
                    (AwaitFrames video)
        else processQueue_loop (currentIndex_update S s)
    | None => Threw s (ErrorObj "Cannot read properties of undefined")
    end
  else Returned (epilogue s).
Proof.
  unfold processQueue_loop at 1. simpl.
  destruct (currentIndex s <? List.length (videos s)) eqn:E; simpl; trivial.
  apply Nat.ltb_lt in E.
  destruct (isProcessing s && negb (isPaused s)); simpl; trivial.
  destruct (nth_error (videos s) (currentIndex s)) as [video|]; trivial.
  destruct (eligible (status video)); trivial.
  unfold processQueue_loop. simpl.
  replace (List.length (videos s) - currentIndex s)
    with (S (List.length (videos s) - S (currentIndex s))) by lia.
  reflexivity.
Qed.



Section TraversalFacts.
Context {JN : JsNumber}.
Variable env : Env.

Lemma drain_settled (fuel : nat) (tr : Traversal) (log : list Task) :
  (forall s t, tr <> Suspended s t) -> drain fuel env tr log = (tr, log).
Proof.
  intros H. destruct tr as [s t| | |]; destruct fuel; trivial;
    now destruct (H s t).
Qed.

Lemma drain_suspended (fuel : nat) (s : AppComponent) (t : Task)
    (log : list Task) :
  drain (S fuel) env (Suspended s t) log =
  drain fuel env (resumeTask env s t) (log ++ [t]).
Proof.
  reflexivity.
Qed.

(** An uninterrupted traversal from the cursor to the end of the queue:
    every eligible item from the cursor on is replaced by its [outcome],
    the others are left alone, and the traversal returns. *)
Lemma drain_sweep (rest pre : list VideoMetadata) (s : AppComponent)
    (fuel : nat) (log : list Task) :
  videos s = pre ++ rest ->
  currentIndex s = List.length pre ->
  NoDup (map id (videos s)) ->
  isProcessing s = true ->
  isPaused s = false ->
  2 * List.length rest <= fuel ->
  drain fuel env (processQueue_loop s) log =
  (Returned
     (finished s
        (pre ++ sweep (geminiService s) env (List.length pre) rest)),
   log ++ sweepLog env (List.length pre) rest).
Proof.
  revert pre s fuel log.
  induction rest as [|v rest IH]; intros pre s fuel log Hv Hi Hnd Hp Hq Hfuel;
    rewrite processQueue_loop_unfold.
  - rewrite Hv, Hi, app_nil_r, Nat.ltb_irrefl. simpl "&&". cbv iota.
    rewrite drain_settled by discriminate.
    simpl. rewrite !app_nil_r. f_equal.
    unfold epilogue. rewrite Hv, Hi, app_nil_r, Nat.leb_refl.
    destruct s; simpl in *. subst. now rewrite app_nil_r.
  - assert (Hlt : (currentIndex s <? List.length (videos s)) = true).
    { apply Nat.ltb_lt. rewrite Hv, Hi, length_app. simpl. lia. }
    assert (Hnth : nth_error (videos s) (currentIndex s) = Some v).
    { rewrite Hv, Hi, nth_error_app2, Nat.sub_diag; trivial. }
    rewrite Hlt, Hp, Hq, Hnth. simpl "&&". cbv iota.
    assert (Hpre : List.length (pre ++ [v]) = S (List.length pre)).
    { rewrite length_app. simpl. lia. }
    assert (Hlen : List.length (v :: rest) = S (List.length rest))
      by reflexivity.
    rewrite Hlen in Hfuel.
    cbn [sweep sweepLog].
    destruct (eligible (status v)) eqn:He.
    + (* the item is processed *)
      destruct fuel as [|[|fuel]]; try lia.
      assert (Hs1 : videos (updateVideoStatus (id v) processing s)
                    = pre ++ processingItem v :: rest).
      { cbn [updateVideoStatus videos_update videos]. rewrite Hv.
        apply (update_at pre rest v processingItem). now rewrite <- Hv. }
      assert (Hnd1 : NoDup (map id (pre ++ processingItem v :: rest))).
      { rewrite Hv in Hnd. rewrite map_app in *. exact Hnd. }
      assert (Hnext : forall (g : VideoMetadata -> VideoMetadata) s2 log2 k,
                 2 * List.length rest <= k ->
                 (forall x, id (g x) = id x) ->
                 videos s2 = pre ++ g (processingItem v) :: rest ->
                 currentIndex s2 = S (List.length pre) ->
                 isProcessing s2 = true ->
                 isPaused s2 = false ->
                 geminiService s2 = geminiService s ->
                 apiKeyMissing s2 = apiKeyMissing s ->
                 drain k env (processQueue_loop s2) log2 =
                 (Returned
                    (finished s
                       (pre ++ g (processingItem v)
                        :: sweep (geminiService s) env (S (List.length pre))
                             rest)),
                  log2 ++ sweepLog env (S (List.length pre)) rest)).
      { intros g s2 log2 k Hk Hg H1 H2 H3 H4 H5 H6.
        rewrite (IH (pre ++ [g (processingItem v)]) s2 k log2);
          rewrite ?length_app, ?H1, <- ?app_assoc; simpl; trivial; try lia.
        - rewrite Nat.add_1_r, H5. unfold finished. now rewrite H5, H6.
        - rewrite map_app in *. simpl in *. now rewrite Hg. }
      rewrite drain_suspended. cbn [resumeTask]. unfold updateVideoStatus at 1.
      cbn [currentIndex videos_update]. rewrite Hi.
      unfold outcome, requests.
      destruct (fst (extractFrames (decoderAt env (List.length pre))
                       (file v) 8)) as [frames|e].
      * cbn [onFramesSettled]. rewrite drain_suspended. cbn [resumeTask].
        unfold updateVideoStatus at 1 2.
        cbn [currentIndex geminiService videos_update]. rewrite Hi.
        destruct (generateMetadataFromFrames (geminiService s) frames
                    (replyAt env (List.length pre))) as [m|e];
          cbn [onMetadataSettled].
        -- rewrite (Hnext (fun x => completedItem x m)); trivial; try lia.
           ++ now rewrite <- !app_assoc.
           ++ cbn [currentIndex_update videos]. unfold updateVideoResult.
              cbn [videos_update videos]. fold (updateVideoStatus (id v) processing s).
              rewrite Hs1.
              apply (update_at pre rest (processingItem v)
                       (fun x => completedItem x m)). exact Hnd1.
           ++ simpl. now rewrite Hi.
        -- rewrite (Hnext (fun x => failedItem x e)); trivial; try lia.
           ++ now rewrite <- !app_assoc.
           ++ cbn [currentIndex_update videos]. unfold catchBlock, updateVideoResult.
              cbn [videos_update videos]. fold (updateVideoStatus (id v) processing s).
              rewrite Hs1.
              apply (update_at pre rest (processingItem v)
                       (fun x => failedItem x e)). exact Hnd1.
           ++ simpl. now rewrite Hi.
      * cbn [onFramesSettled].
        rewrite (Hnext (fun x => failedItem x e)); trivial; try lia.
        -- now rewrite <- !app_assoc.
        -- cbn [currentIndex_update videos]. unfold catchBlock, updateVideoResult.
           cbn [videos_update videos]. fold (updateVideoStatus (id v) processing s).
           rewrite Hs1.
           apply (update_at pre rest (processingItem v)
                    (fun x => failedItem x e)). exact Hnd1.
        -- simpl. now rewrite Hi.
    + (* the item is skipped *)
      rewrite (IH (pre ++ [v])); rewrite ?Hpre; simpl; trivial; try lia.
      * now rewrite <- !app_assoc.
      * now rewrite Hv, <- app_assoc.
Qed.

End TraversalFacts.

Section SweepFacts.
Context {JN : JsNumber}.
Variable svc : GeminiService.
Variable env : Env.

Lemma sweep_nth (l : list VideoMetadata) (k j : nat) :
  nth_error (sweep svc env k l) j =
  match nth_error l j with
  | Some v => Some (if eligible (status v) then outcome svc env (k + j) v
                    else v)
  | None => None
  end.
Proof.
  revert k j. induction l as [|v l IH]; intros k [|j]; simpl; trivial.
  - now rewrite Nat.add_0_r.
  - rewrite IH. now rewrite Nat.add_succ_r.
Qed.

Lemma sweep_length (l : list VideoMetadata) (k : nat) :
  List.length (sweep svc env k l) = List.length l.
Proof.
  revert k. induction l as [|v l IH]; intros k; simpl; [reflexivity|].
  now rewrite IH.
Qed.

Lemma requests_video (i : nat) (v : VideoMetadata) (t : Task) :
  In t (requests env i v) -> task_video t = v.
Proof.
  unfold requests.
  destruct (fst (extractFrames (decoderAt env i) (file v) 8));
    simpl; intros H; intuition; subst; reflexivity.
Qed.

Lemma requests_frames (i : nat) (v : VideoMetadata) :
  In (AwaitFrames v) (requests env i v).
Proof.
  unfold requests.
  destruct (fst (extractFrames (decoderAt env i) (file v) 8)); simpl; auto.
Qed.

(** Every request of a traversal is made for an eligible item. *)
Lemma sweepLog_eligible (l : list VideoMetadata) (k : nat) (t : Task) :
  In t (sweepLog env k l) ->
  exists j, nth_error l j = Some (task_video t)
            /\ eligible (status (task_video t)) = true.
Proof.
  revert k. induction l as [|v l IH]; intros k; simpl; [contradiction|].
  intros H. apply in_app_or in H. destruct H as [H|H].
  - destruct (eligible (status v)) eqn:He; [|contradiction].
    apply requests_video in H. subst v. now exists 0.
  - destruct (IH _ H) as [j Hj]. now exists (S j).
Qed.

(** Every eligible item has its frames requested. *)
Lemma sweepLog_requested (l : list VideoMetadata) (k j : nat)
    (v : VideoMetadata) :
  nth_error l j = Some v -> eligible (status v) = true ->
  In (AwaitFrames v) (sweepLog env k l).
Proof.
  revert k j. induction l as [|x l IH]; intros k [|j]; simpl;
    try discriminate; intros E He; apply in_or_app.
  - injection E as ->. rewrite He. left. apply requests_frames.
  - right. eapply IH; eauto.
Qed.

End SweepFacts.

Section TraversalResults.
Context {JN : JsNumber}.
Variable env : Env.

(** [processQueue] on a running component with unique identifiers. *)
Lemma processQueue_sweep (s : AppComponent) :
  NoDup (map id (videos s)) ->
  isProcessing s = true ->
  isPaused s = false ->
  currentIndex s <= List.length (videos s) ->
  processQueue env s =
  (Returned
     (finished s
        (firstn (currentIndex s) (videos s)
         ++ sweep (geminiService s) env (currentIndex s)
              (skipn (currentIndex s) (videos s)))),
   sweepLog env (currentIndex s) (skipn (currentIndex s) (videos s))).
Proof.
  intros Hnd Hp Hq Hle. unfold processQueue, processQueue_start.
  pose proof (firstn_skipn (currentIndex s) (videos s)) as Hsplit.
  assert (Hlen : List.length (firstn (currentIndex s) (videos s))
                 = currentIndex s) by (rewrite length_firstn; lia).
  rewrite (@drain_sweep JN env (skipn (currentIndex s) (videos s))
             (firstn (currentIndex s) (videos s))); simpl; trivial.
  - now rewrite Hlen.
  - now rewrite Hsplit.
  - now rewrite Hlen.
  - rewrite length_skipn. lia.
Qed.

Lemma runEffect_running (s : AppComponent) :
  isProcessing s = true ->
  isPaused s = false ->
  processQueueRunning s = false ->
  runEffect env s = processQueue env s.
Proof.
  intros Hp Hq Hr. unfold runEffect, processQueue, effectBody.
  now rewrite Hp, Hq, Hr.
Qed.

(** An uninterrupted traversal is a run of the event loop in which only
    the awaited promises settle. *)
Lemma drain_run (fuel : nat) (tr : Traversal) (log log' : list Task)
    (sys0 sys : System) (s' : AppComponent) :
  install tr sys0 = Some sys ->
  drain fuel env tr log = (Returned s', log') ->
  exists acts,
    run acts sys
    = Some {| app := s'; task := None;
              thumbnailJobs := thumbnailJobs sys0; issued := issued sys0 |}.
Proof.
  revert tr log sys0 sys.
  induction fuel as [|fuel IH]; intros tr log sys0 sys Hi Hd;
    destruct tr as [s t|s|s e|]; simpl in *; try discriminate;
    try (injection Hd as <- _; injection Hi as <-; now exists []).
  assert (Hex : exists a, exec a sys = install (resumeTask env s t) sys).
  { injection Hi as <-. destruct t as [video|video frames].
    - now exists (FramesSettled (decoderAt env (currentIndex s))).
    - now exists (MetadataSettled (replyAt env (currentIndex s))). }
  destruct Hex as [a Ha].
  destruct (install (resumeTask env s t) sys) as [sys2|] eqn:E2.
  - destruct (IH _ _ _ _ E2 Hd) as [acts Hacts].
    exists (a :: acts). simpl. rewrite Ha.
    injection Hi as <-. exact Hacts.
  - destruct (resumeTask env s t); simpl in E2; try discriminate.
    destruct fuel; simpl in Hd; discriminate.
Qed.

Lemma effect_traversal_run (sys : System) (s' : AppComponent)
    (log : list Task) :
  isProcessing (app sys) = true ->
  isPaused (app sys) = false ->
  processQueueRunning (app sys) = false ->
  runEffect env (app sys) = (Returned s', log) ->
  exists acts,
    run (EffectRun :: acts) sys
    = Some {| app := s'; task := None;
              thumbnailJobs := thumbnailJobs sys; issued := issued sys |}.
Proof.
  intros Hp Hq Hr Hd. unfold runEffect, effectBody in Hd.
  simpl. rewrite Hp, Hq, Hr in *. simpl in *.
  destruct (install (processQueue_start (app sys)) sys) as [sys2|] eqn:E.
  - destruct (drain_run _ _ _ _ E Hd) as [acts Hacts]. now exists acts.
  - destruct (processQueue_start (app sys)); simpl in E; try discriminate.
    destruct (List.length (videos (app sys)) - currentIndex (app sys));
      simpl in Hd; discriminate.
Qed.

Lemma extractFrames_resolves (dec : Decoder) (f : File) (n : nat) :
  context2d dec = true ->
  loadedmetadata dec <> None ->
  exists frames, fst (extractFrames dec f n) = Resolved frames.
Proof.
  intros Hc Hl. unfold extractFrames. rewrite Hc. simpl negb. cbv iota.
  destruct (loadedmetadata dec) as [[[D w] h]|]; [|congruence].
  rewrite seekLoop_unfold. eexists. reflexivity.
Qed.

End TraversalResults.

Section TraversalClaims.
Context {JN : JsNumber}.
Variable env : Env.

Lemma install_caught (error : Thrown) (video : VideoMetadata) (i : nat)
    (tr : Traversal) (sys : System) :
  caught error video i tr ->
  exists sys',
    install tr sys = Some sys'
    /\ i < currentIndex (app sys')
    /\ forall v, In v (videos (app sys')) -> id v = id video ->
                 failedWith error v
                 \/ exists t, task sys' = Some t
                              /\ id (task_video t) = id video
                              /\ status v = processing.
Proof.
  destruct tr as [s t|s|s e|]; simpl; try contradiction;
    intros [Hi Hv]; eexists; (split; [reflexivity|]); simpl;
    (split; [exact Hi|]); intros v Hin Hid.
  - destruct (Hv v Hin Hid) as [H|[H1 H2]]; [now left|].
    right. now exists t.
  - left. now apply Hv.
Qed.

(** C3: on a running component with unique identifiers, when the frame
    extraction or the inference of an eligible item at or after the cursor
    fails, the traversal still returns normally; that item ends with status
    [failed], the failure's message as [errorMessage], an empty title and no
    keywords; the cursor ends at the end of the queue and every later
    eligible item had its frames requested.  In the event loop, whatever
    happened while the promise was pending, a rejected extraction or
    inference is handled by the [catch] block: the traversal goes on past
    the cursor without an exception and the item carries the failure,
    unless the loop has at once picked that same item up again. *)
Theorem failure_is_recorded :
  (forall s i v e,
     NoDup (map id (videos s)) ->
     isProcessing s = true ->
     isPaused s = false ->
     currentIndex s <= i ->
     nth_error (videos s) i = Some v ->
     eligible (status v) = true ->
     (fst (extractFrames (decoderAt env i) (file v) 8) = Rejected e
      \/ exists frames,
           fst (extractFrames (decoderAt env i) (file v) 8) = Resolved frames
           /\ generateMetadataFromFrames (geminiService s) frames
                (replyAt env i) = Rejected e) ->
     exists s' log v',
       processQueue env s = (Returned s', log)
       /\ nth_error (videos s') i = Some v'
       /\ id v' = id v
       /\ failedWith e v'
       /\ currentIndex s' = List.length (videos s)
       /\ forall j w, i < j -> nth_error (videos s) j = Some w ->
                      eligible (status w) = true -> In (AwaitFrames w) log)
  /\ (forall sys video dec e,
        task sys = Some (AwaitFrames video) ->
        fst (extractFrames dec (file video) 8) = Rejected e ->
        exists sys',
          exec (FramesSettled dec) sys = Some sys'
          /\ currentIndex (app sys) < currentIndex (app sys')
          /\ forall v, In v (videos (app sys')) -> id v = id video ->
                       failedWith e v
                       \/ exists t, task sys' = Some t
                                    /\ id (task_video t) = id video
                                    /\ status v = processing)
  /\ (forall sys video frames reply e,
        task sys = Some (AwaitMetadata video frames) ->
        generateMetadataFromFrames (geminiService (app sys)) frames reply
        = Rejected e ->
        exists sys',
          exec (MetadataSettled reply) sys = Some sys'
          /\ currentIndex (app sys) < currentIndex (app sys')
          /\ forall v, In v (videos (app sys')) -> id v = id video ->
                       failedWith e v
                       \/ exists t, task sys' = Some t
                                    /\ id (task_video t) = id video
                                    /\ status v = processing).
Proof.
  split; [|split].
  - intros s i v e Hnd Hp Hq Hle Hnth He Hfail.
    assert (Hi : i < List.length (videos s)).
    { apply nth_error_Some. congruence. }
    rewrite processQueue_sweep by (trivial; lia).
    set (c := currentIndex s) in *.
    assert (Hc : List.length (firstn c (videos s)) = c)
      by (rewrite length_firstn; lia).
    assert (Hskip : forall j, c <= j ->
              nth_error (skipn c (videos s)) (j - c)
              = nth_error (videos s) j).
    { intros j Hj. rewrite nth_error_skipn. f_equal. lia. }
    eexists. eexists. exists (failedItem v e).
    split; [reflexivity|]. simpl.
    split.
    + rewrite nth_error_app2 by lia.
      rewrite Hc, sweep_nth, Hskip, Hnth, He by lia.
      replace (c + (i - c)) with i by lia.
      unfold outcome. destruct Hfail as [-> | [frames [-> ->]]]; reflexivity.
    + split; [reflexivity|]. split; [repeat split|]. split.
      * rewrite length_app, sweep_length, <- length_app, firstn_skipn.
        reflexivity.
      * intros j w Hj Hw Hew.
        apply sweepLog_requested with (j := j - c); trivial.
        rewrite Hskip by lia. exact Hw.
  - intros sys video dec e Ht Hr. simpl. rewrite Ht, Hr. simpl.
    apply install_caught, catch_resumed.
  - intros sys video frames reply e Ht Hr. simpl. rewrite Ht, Hr. simpl.
    apply install_caught, catch_resumed.
Qed.

(** C4: on a component with unique identifiers, [retryFailed] sets the
    cursor to 0; the traversal the effect then runs returns, requests
    frames or inference only for items that were [pending] or [failed], and
    leaves every item that was [completed] exactly as it was, with no
    request made for it.  In the event loop, from any reachable state and
    through any events after the retry other than [clearAll], every item
    that was [completed] keeps its position, identifier, file, status,
    title, keywords and error message, and the request in flight is never
    for such an item. *)
Theorem retry_skips_completed :
  (forall s,
     NoDup (map id (videos s)) ->
     currentIndex (fst (retryFailed s)) = 0
     /\ exists s' log,
          runEffect env (fst (retryFailed s)) = (Returned s', log)
          /\ (forall t, In t log ->
                exists j, nth_error (videos s) j = Some (task_video t)
                          /\ eligible (status (task_video t)) = true)
          /\ (forall j v, nth_error (videos s) j = Some v ->
                status v = completed ->
                nth_error (videos s') j = Some v
                /\ forall t, In t log -> id (task_video t) <> id v))
  /\ (forall API_KEY sys acts sys',
        reachable API_KEY sys ->
        noClear acts = true ->
        run (RetryFailed :: acts) sys = Some sys' ->
        frameCompleted (videos (app sys)) (videos (app sys'))
        /\ forall t v, task sys' = Some t -> In v (videos (app sys)) ->
                       status v = completed -> id (task_video t) <> id v).
Proof.
  split.
  - intros s Hnd.
    set (s1 := fst (retryFailed s)).
    assert (Hv : videos s1 = videos s).
    { unfold s1, retryFailed, startProcessing. simpl.
      now destruct (apiKeyMissing s). }
    assert (Hc : currentIndex s1 = 0).
    { unfold s1, retryFailed, startProcessing. simpl.
      now destruct (apiKeyMissing s). }
    split; [exact Hc|].
    unfold runEffect, effectBody.
    destruct (isProcessing s1 && negb (isPaused s1)
              && negb (processQueueRunning s1)) eqn:Hen.
    + apply andb_prop in Hen. destruct Hen as [Hen _].
      apply andb_prop in Hen. destruct Hen as [Hp Hq].
      apply negb_true_iff in Hq.
      fold (processQueue env s1).
      rewrite processQueue_sweep; rewrite ?Hv, ?Hc; trivial; try lia.
      simpl firstn. simpl skipn. simpl app.
      eexists. eexists. split; [reflexivity|]. simpl. split.
      * intros t Ht. eapply sweepLog_eligible; eauto.
      * intros j v Hj Hs. split.
        -- rewrite sweep_nth, Hj, Hs. reflexivity.
        -- intros t Ht E.
           destruct (sweepLog_eligible _ _ _ _ Ht) as [j' [Hj' He]].
           assert (task_video t = v) as Heq.
           { eapply unique_by_id; eauto using nth_error_In. }
           rewrite Heq, Hs in He. discriminate.
    + rewrite drain_settled by discriminate.
      eexists. eexists. split; [reflexivity|]. split.
      * intros t [].
      * intros j v Hj Hs. split; [now rewrite Hv|intros t []].
  - intros API_KEY sys acts sys' Hr Hn E.
    destruct (reachable_taskInvariant Hr) as [Hs Ht].
    destruct (run_stepped (RetryFailed :: acts) Hs Ht E) as [_ [Ht' Hf]].
    specialize (Hf Hn). split; [exact Hf|].
    intros t v Et Hv Hst Hid.
    apply In_nth_error in Hv. destruct Hv as [j Hj].
    destruct (Hf j v Hj Hst) as [v' [Hj' Hc]].
    destruct Ht' as [_ Hbusy]. destruct (Hbusy t Et) as [[_ Hp] _].
    unfold core in Hc. injection Hc as Hid' _ Hst' _ _ _.
    assert (status v' = processing).
    { apply Hp; [eapply nth_error_In; eauto|congruence]. }
    congruence.
Qed.

(** C5: two video files submitted to a fresh, configured component with
    distinct identifiers, when both extractions succeed and both inferences
    return [m]: the traversal started by the effect returns with both items
    [completed] with the title and keywords of [m], the cursor at 2 and
    [isProcessing] false. *)
Theorem two_videos_completed (API_KEY : option string) (f1 f2 : File)
    (u : nat -> string) (m : Metadata) :
  truthy API_KEY = true ->
  isVideo f1 = true ->
  isVideo f2 = true ->
  u 0 <> u 1 ->
  (forall i, i < 2 -> context2d (decoderAt env i) = true
                      /\ loadedmetadata (decoderAt env i) <> None) ->
  (forall i, i < 2 -> replyAt env i = Some m) ->
  exists s' log,
    runEffect env
      (fst (onFileSelected (Some [f1; f2]) u
              (AppComponent_new (GeminiService_new API_KEY))))
    = (Returned s', log)
    /\ map (fun v => (status v, title v, keywords v)) (videos s')
       = [(completed, meta_title m, meta_keywords m);
          (completed, meta_title m, meta_keywords m)]
    /\ currentIndex s' = 2
    /\ isProcessing s' = false
    /\ exists acts sys',
         run (FileSelected (Some [f1; f2]) u :: EffectRun :: acts)
             (boot API_KEY) = Some sys'
         /\ app sys' = s'
         /\ task sys' = None.
Proof.
  intros Hk H1 H2 Hu Hdec Hrep.
  destruct API_KEY as [k|]; [|discriminate].
  set (v1 := {| id := u 0; file := f1; thumbnail := None; status := pending;
                title := ""; keywords := []; errorMessage := None |}).
  set (v2 := {| id := u 1; file := f2; thumbnail := None; status := pending;
                title := ""; keywords := []; errorMessage := None |}).
  set (svc := GeminiService_new (Some k)).
  assert (Hs1 : fst (onFileSelected (Some [f1; f2]) u (AppComponent_new svc))
                = {| geminiService := svc; videos := [v1; v2];
                     isProcessing := true; isPaused := false;
                     currentIndex := 0; apiKeyMissing := false;
                     processQueueRunning := false |}).
  { unfold onFileSelected, newVideos, startProcessing, AppComponent_new,
      isConfigured, svc, GeminiService_new.
    rewrite Hk. simpl filter. rewrite H1, H2. reflexivity. }
  assert (Hai : ai svc = Some {| clientKey := k |}).
  { unfold svc, GeminiService_new. now rewrite Hk. }
  assert (Hnew : newVideos (Some [f1; f2]) u = [v1; v2]).
  { unfold newVideos. simpl filter. now rewrite H1, H2. }
  assert (Hfile : exec (FileSelected (Some [f1; f2]) u) (boot (Some k))
                  = Some {| app := fst (onFileSelected (Some [f1; f2]) u
                                          (AppComponent_new svc));
                            task := None;
                            thumbnailJobs := [v1; v2];
                            issued := [u 0; u 1] |}).
  { cbn [exec]. rewrite Hnew. cbn [boot issued app task thumbnailJobs app map
      v1 v2 id]. simpl distinct.
    apply String.eqb_neq in Hu. now rewrite Hu. }
  rewrite Hs1 in *. clearbody svc. clear Hs1.
  assert (Hrun : exists s' log,
            runEffect env
              {| geminiService := svc; videos := [v1; v2];
                 isProcessing := true; isPaused := false;
                 currentIndex := 0; apiKeyMissing := false;
                 processQueueRunning := false |} = (Returned s', log)
            /\ map (fun v => (status v, title v, keywords v)) (videos s')
               = [(completed, meta_title m, meta_keywords m);
                  (completed, meta_title m, meta_keywords m)]
            /\ currentIndex s' = 2
            /\ isProcessing s' = false).
  { rewrite runEffect_running by reflexivity.
    rewrite processQueue_sweep;
      cbn [videos currentIndex isProcessing isPaused];
      trivial; try (simpl; lia).
    - destruct (Hdec 0) as [Hc0 Hl0]; [lia|].
      destruct (Hdec 1) as [Hc1 Hl1]; [lia|].
      destruct (@extractFrames_resolves JN _ f1 8 Hc0 Hl0) as [g0 G0].
      destruct (@extractFrames_resolves JN _ f2 8 Hc1 Hl1) as [g1 G1].
      eexists. eexists. split; [reflexivity|].
      cbn [firstn skipn app sweep status v1 v2 eligible finished videos
           currentIndex isProcessing map].
      unfold outcome. change (file v1) with f1. change (file v2) with f2.
      rewrite G0, G1. unfold generateMetadataFromFrames.
      cbn [geminiService]. rewrite Hai, !Hrep by lia. simpl. auto.
    - simpl. repeat constructor; simpl; intuition. }
  destruct Hrun as [s' [log [E [Hm [Hc Hp]]]]].
  exists s', log. do 4 (split; trivial).
  destruct (effect_traversal_run env
              {| app := {| geminiService := svc; videos := [v1; v2];
                           isProcessing := true; isPaused := false;
                           currentIndex := 0; apiKeyMissing := false;
                           processQueueRunning := false |};
                 task := None; thumbnailJobs := [v1; v2];
                 issued := [u 0; u 1] |} eq_refl eq_refl eq_refl E)
    as [acts Hacts].
  exists acts. eexists.
  split; [cbn [run]; rewrite Hfile; exact Hacts|split; reflexivity].
Qed.

End TraversalClaims.

Lemma failure_is_recorded_witness :
  (exists s' log v',
     @processQueue QNumber allBroken onePending = (Returned s', log)
     /\ nth_error (videos s') 0 = Some v'
     /\ id v' = "3f2a"
     /\ failedWith (ErrorObj "Failed to load video file.") v'
     /\ currentIndex s' = 1)
  /\ (exists sys',
        @exec QNumber (FramesSettled broken) awaitingFrames = Some sys'
        /\ currentIndex (app awaitingFrames) < currentIndex (app sys')).
Proof.
  destruct (@failure_is_recorded QNumber allBroken) as [P1 [P2 _]].
  split.
  - destruct (P1 onePending 0 (sampleItem "3f2a" pending "" [] None)
                (ErrorObj "Failed to load video file."))
      as [s' [log [v' [E [Hn [Hid [Hf [Hc _]]]]]]]].
    + apply distinct_NoDup. reflexivity.
    + reflexivity.
    + reflexivity.
    + simpl. lia.
    + reflexivity.
    + reflexivity.
    + left. reflexivity.
    + exists s', log, v'. repeat split; trivial; apply Hf.
  - destruct (P2 awaitingFrames
                (sampleItem "3f2a" pending "" [] None) broken
                (ErrorObj "Failed to load video file.") eq_refl eq_refl)
      as [sys' [E [Hc _]]].
    exists sys'. now split.
Defined.

Lemma afterSuccess_reachable : @reachable QNumber (Some "key") afterSuccess.
Proof.
  exists [FileSelected (Some [clip]) sampleUUID; EffectRun;
          FramesSettled tenSeconds; MetadataSettled (Some answerT)].
  reflexivity.
Defined.

Lemma retry_skips_completed_witness :
  (exists s' log,
     @runEffect QNumber allGood (fst (retryFailed oneDoneOneFailed))
     = (Returned s', log)
     /\ nth_error (videos s') 0
        = Some (sampleItem "3f2a" completed "Done" ["x"] None))
  /\ frameCompleted (videos (app afterSuccess)) (videos (app afterRetry))
  /\ map status (videos (app afterSuccess)) = [completed].
Proof.
  destruct (@retry_skips_completed QNumber allGood) as [P1 P2].
  split; [|split; [|reflexivity]].
  - destruct (P1 oneDoneOneFailed) as [_ [s' [log [E [_ H]]]]].
    + apply distinct_NoDup. reflexivity.
    + exists s', log. split; [exact E|].
      apply (H 0 (sampleItem "3f2a" completed "Done" ["x"] None));
        reflexivity.
  - apply (P2 (Some "key") afterSuccess [EffectRun] afterRetry).
    + exact afterSuccess_reachable.
    + reflexivity.
    + reflexivity.
Defined.

Lemma two_videos_completed_witness :
  exists s' log,
    @runEffect QNumber allGood
      (fst (onFileSelected (Some [clip; clip2]) sampleUUID
              (AppComponent_new (GeminiService_new (Some "key")))))
    = (Returned s', log)
    /\ map (fun v => (status v, title v, keywords v)) (videos s')
       = [(completed, "T", ["a"; "b"]); (completed, "T", ["a"; "b"])]
    /\ currentIndex s' = 2
    /\ isProcessing s' = false
    /\ exists acts sys',
         @run QNumber
           (FileSelected (Some [clip; clip2]) sampleUUID :: EffectRun :: acts)
           (boot (Some "key")) = Some sys'
         /\ app sys' = s'
         /\ task sys' = None.
Proof.
  apply (@two_videos_completed QNumber allGood (Some "key") clip clip2
           sampleUUID answerT).
  - reflexivity.
  - reflexivity.
  - reflexivity.
  - discriminate.
  - intros i _. split; [reflexivity|discriminate].
  - intros i _. reflexivity.
Defined.

(** ** Thumbnails *)

Section ThumbnailClaims.
Context {JN : JsNumber}.

(** C9: in a reachable state, when the thumbnail job of a submitted item
    settles, the event is always handled; the traversal, the flags, the
    cursor and the identifier, status, title, keywords and error message of
    every item are as before.  When the extraction failed the whole
    component is unchanged and the item still has no thumbnail.  When the
    resource loads with duration [D] the one seek requested is at
    [min(1, D)]. *)
Theorem thumbnail_failure_is_silent (API_KEY : option string) (sys : System)
    (job : nat) (video : VideoMetadata) (dec : Decoder) :
  reachable API_KEY sys ->
  nth_error (thumbnailJobs sys) job = Some video ->
  exists sys',
    exec (ThumbnailSettled job dec) sys = Some sys'
    /\ task sys' = task sys
    /\ isProcessing (app sys') = isProcessing (app sys)
    /\ isPaused (app sys') = isPaused (app sys)
    /\ currentIndex (app sys') = currentIndex (app sys)
    /\ map (fun v => (id v, status v, title v, keywords v, errorMessage v))
         (videos (app sys'))
       = map (fun v => (id v, status v, title v, keywords v, errorMessage v))
           (videos (app sys))
    /\ (forall e,
          fst (extractSingleFrame dec (file video) (of_nat 1)) = Rejected e ->
          app sys' = app sys
          /\ forall v, In v (videos (app sys')) -> id v = id video ->
                       thumbnail v = None)
    /\ (forall D w h,
          context2d dec = true ->
          loadedmetadata dec = Some (D, w, h) ->
          seeks (snd (extractSingleFrame dec (file video) (of_nat 1)))
          = [nmin (of_nat 1) D]).
Proof.
  intros Hr Hjob. apply reachable_invariant in Hr.
  destruct Hr as [_ _ _ _ _ Hpending].
  simpl. rewrite Hjob. eexists. split; [reflexivity|]. simpl.
  split; [reflexivity|].
  assert (Hseek : forall D w h,
            context2d dec = true ->
            loadedmetadata dec = Some (D, w, h) ->
            seeks (snd (extractSingleFrame dec (file video) (of_nat 1)))
            = [nmin (of_nat 1) D]).
  { intros D w h Hc Hl. unfold extractSingleFrame. now rewrite Hc, Hl. }
  destruct (fst (extractSingleFrame dec (file video) (of_nat 1)))
    as [frame|e0] eqn:Er; simpl.
  - do 3 (split; [reflexivity|]).
    split; [now apply map_update_frame|].
    split; [|exact Hseek].
    intros e He. discriminate.
  - do 4 (split; [reflexivity|]).
    split; [|exact Hseek].
    intros e _. split; [reflexivity|].
    intros v Hv Hid.
    apply (Hpending (idThumbnail v)).
    + now apply in_map.
    + simpl. rewrite Hid. apply in_map. eapply nth_error_In; eauto.
Qed.

End ThumbnailClaims.

Lemma thumbnail_failure_is_silent_witness :
  exists sys',
    @exec QNumber (ThumbnailSettled 0 broken) unconfiguredStopped = Some sys'
    /\ app sys' = app unconfiguredStopped
    /\ map thumbnail (videos (app sys')) = [None].
Proof.
  destruct (@thumbnail_failure_is_silent QNumber None unconfiguredStopped 0
              {| id := "3f2a"; file := clip; thumbnail := None;
                 status := pending; title := ""; keywords := [];
                 errorMessage := None |} broken
              unconfiguredStopped_reachable eq_refl)
    as [sys' [E [_ [_ [_ [_ [_ [Hfail _]]]]]]]].
  exists sys'. split; [exact E|].
  destruct (Hfail (ErrorObj "Failed to load video file for thumbnail.")
              eq_refl) as [Happ _].
  split; [exact Happ|]. rewrite Happ. reflexivity.
Defined.

(** ** CSV export *)

Lemma string_app_nil_r (a : string) : (a ++ "")%string = a.
Proof.
  induction a as [|c a IH]; simpl; [reflexivity|now rewrite IH].
Qed.

Lemma string_app_assoc (a b c : string) :
  ((a ++ b) ++ c)%string = (a ++ (b ++ c))%string.
Proof.
  induction a as [|x a IH]; simpl; [reflexivity|now rewrite IH].
Qed.

(** Inside a quoted field the reader undoes the doubling of quotes. *)
Lemma readCSV_quoted_body (str field : string) (fields : list string)
    (rest : string) :
  readCSV Quoted field fields
    (replaceAll dquote (String dquote (String dquote "")) str
     ++ String dquote rest)%string
  = readCSV QuoteSeen (field ++ str)%string fields rest.
Proof.
  revert field. induction str as [|c str IH]; intros field.
  - simpl. now rewrite string_app_nil_r.
  - simpl replaceAll. destruct (Ascii.eqb c dquote) eqn:E.
    + apply Ascii.eqb_eq in E. subst c. simpl. rewrite IH.
      now rewrite string_app_assoc.
    + simpl. rewrite E, IH. now rewrite string_app_assoc.
Qed.

Lemma readCSV_escape (str : string) (fields : list string) (rest : string) :
  readCSV FieldStart "" fields (escape str ++ rest)%string
  = readCSV QuoteSeen str fields rest.
Proof.
  unfold escape. simpl. rewrite string_app_assoc. simpl.
  now rewrite readCSV_quoted_body.
Qed.

Lemma csvRow_unfold (v : VideoMetadata) (rest : string) :
  (csvRow v ++ rest)%string
  = (escape (name (file v)) ++ String comma
       (escape (title v) ++ String comma
          (escape (join ", " (keywords v)) ++ rest)))%string.
Proof.
  unfold csvRow. cbn [join].
  rewrite !string_app_assoc. simpl. now rewrite !string_app_assoc.
Qed.

Lemma readCSV_after_comma (field : string) (fields : list string)
    (rest : string) :
  readCSV QuoteSeen field fields (String comma rest)
  = readCSV FieldStart "" (fields ++ [field]) rest.
Proof.
  reflexivity.
Qed.

Lemma readCSV_after_newline (field : string) (fields : list string)
    (rest : string) :
  readCSV QuoteSeen field fields (String newline rest)
  = option_map (cons (fields ++ [field])) (readCSV FieldStart "" [] rest).
Proof.
  reflexivity.
Qed.

Lemma readCSV_row_last (v : VideoMetadata) :
  readCSV FieldStart "" [] (csvRow v) = Some [csvFields v].
Proof.
  rewrite <- (string_app_nil_r (csvRow v)), csvRow_unfold.
  rewrite readCSV_escape, readCSV_after_comma.
  rewrite readCSV_escape, readCSV_after_comma.
  rewrite readCSV_escape. reflexivity.
Qed.

Lemma readCSV_row_more (v : VideoMetadata) (rest : string) :
  readCSV FieldStart "" [] (csvRow v ++ String newline rest)%string
  = option_map (cons (csvFields v)) (readCSV FieldStart "" [] rest).
Proof.
  rewrite csvRow_unfold.
  rewrite readCSV_escape, readCSV_after_comma.
  rewrite readCSV_escape, readCSV_after_comma.
  rewrite readCSV_escape, readCSV_after_newline. reflexivity.
Qed.

Lemma readCSV_rows (v : VideoMetadata) (l : list VideoMetadata) :
  readCSV FieldStart "" [] (join (String newline "") (map csvRow (v :: l)))
  = Some (map csvFields (v :: l)).
Proof.
  revert v. induction l as [|w l IH]; intros v.
  - simpl. apply readCSV_row_last.
  - change (join (String newline "") (map csvRow (v :: w :: l)))
      with (csvRow v
            ++ String newline
                 (join (String newline "") (map csvRow (w :: l))))%string.
    rewrite readCSV_row_more, IH. reflexivity.
Qed.

Lemma readCSV_header (rows : string) :
  readCSV FieldStart "" [] (csvHeader ++ rows)%string
  = option_map (cons ["Filename"; "Title"; "Keywords"])
      (readCSV FieldStart "" [] rows).
Proof.
  reflexivity.
Qed.

(** C6: when there is no completed item nothing is exported; otherwise the
    document is the header line [Filename,Title,Keywords] followed by the
    rows of the completed items joined by line feeds, each row being the
    escaped file name, title and [", "]-joined keywords separated by
    commas; read back as CSV it gives the header record and exactly one
    record per completed item, with these three fields intact.  The title
    [heSaidHi] is exported as the field [heSaidHiField]. *)
Theorem downloadCSV_reads_back (s : AppComponent) :
  (filter isCompleted (videos s) = [] -> downloadCSV s = None)
  /\ (filter isCompleted (videos s) <> [] ->
      exists doc,
        downloadCSV s = Some doc
        /\ doc = (csvHeader
                  ++ join (String newline "")
                       (map (fun v =>
                               escape (name (file v)) ++ ","
                               ++ escape (title v) ++ ","
                               ++ escape (join ", " (keywords v)))
                          (filter isCompleted (videos s))))%string
        /\ readCSV FieldStart "" [] doc
           = Some (["Filename"; "Title"; "Keywords"]
                   :: map csvFields (filter isCompleted (videos s))))
  /\ escape heSaidHi = heSaidHiField.
Proof.
  unfold downloadCSV. split; [|split].
  - intros ->. reflexivity.
  - intros Hne. destruct (filter isCompleted (videos s)) as [|v l] eqn:E;
      [congruence|].
    eexists. split; [reflexivity|]. split.
    + reflexivity.
    + rewrite readCSV_header, readCSV_rows. reflexivity.
  - reflexivity.
Qed.

Lemma downloadCSV_reads_back_witness :
  exists doc,
    downloadCSV quotedTitle = Some doc
    /\ doc = (csvHeader
              ++ String dquote ("clip.mp4" ++ String dquote ("," ++ heSaidHiField
              ++ "," ++ String dquote ("a, b" ++ String dquote ""))))%string
    /\ readCSV FieldStart "" [] doc
       = Some [["Filename"; "Title"; "Keywords"];
               ["clip.mp4"; heSaidHi; "a, b"]].
Proof.
  destruct (downloadCSV_reads_back quotedTitle) as [_ [H _]].
  destruct H as [doc [E [D R]]]; [discriminate|].
  exists doc. split; [exact E|]. split; [|exact R].
  rewrite D. reflexivity.
Defined.

(** * Further properties of the code *)

(** ** The service and the start gate *)

(** X1: the service is configured exactly when the environment holds a
    non-empty key; a component built on it has [apiKeyMissing] exactly when
    the key is absent or empty, and then [startProcessing] on the fresh
    component is rejected. *)
Theorem configured_iff_key (API_KEY : option string) :
  (isConfigured (GeminiService_new API_KEY) = true
   <-> exists k, API_KEY = Some k /\ k <> "")
  /\ (apiKeyMissing (AppComponent_new (GeminiService_new API_KEY)) = true
      <-> API_KEY = None \/ API_KEY = Some "")
  /\ (API_KEY = None \/ API_KEY = Some "" ->
      startProcessing (AppComponent_new (GeminiService_new API_KEY))
      = (AppComponent_new (GeminiService_new API_KEY), rejection)).
Proof.
  assert (H : isConfigured (GeminiService_new API_KEY) = true
              <-> exists k, API_KEY = Some k /\ k <> "").
  { unfold isConfigured, GeminiService_new. destruct API_KEY as [k|]; simpl.
    - destruct (k =? "")%string eqn:E; simpl.
      + apply String.eqb_eq in E. split; [discriminate|].
        intros [k' [Hk Hne]]. injection Hk as <-. contradiction.
      + apply String.eqb_neq in E. split; [|reflexivity].
        intros _. now exists k.
    - split; [discriminate|]. intros [k [Hk _]]. discriminate. }
  assert (H' : apiKeyMissing (AppComponent_new (GeminiService_new API_KEY))
               = true <-> API_KEY = None \/ API_KEY = Some "").
  { simpl. rewrite negb_true_iff. split.
    - intros Hf. destruct API_KEY as [k|]; [|now left]. right.
      destruct (String.eqb_spec k ""); [now subst|].
      assert (isConfigured (GeminiService_new (Some k)) = true)
        by (apply H; now exists k).
      congruence.
    - intros [->| ->]; reflexivity. }
  split; [exact H|]. split; [exact H'|].
  intros Hk. apply H' in Hk. unfold startProcessing. now rewrite Hk.
Qed.

Lemma configured_iff_key_witness :
  startProcessing (AppComponent_new (GeminiService_new (Some "")))
  = (AppComponent_new (GeminiService_new (Some "")), rejection).
Proof.
  apply (configured_iff_key (Some "")). right. reflexivity.
Defined.

(** ** Submission *)

Lemma mapNew_length (u : nat -> string) (fs : list File) (k : nat) :
  List.length (mapNew u k fs) = List.length fs.
Proof.
  revert k. induction fs as [|f fs IH]; intros k; simpl; [reflexivity|].
  now rewrite IH.
Qed.

Lemma mapNew_files (u : nat -> string) (fs : list File) (k : nat) :
  map file (mapNew u k fs) = fs.
Proof.
  revert k. induction fs as [|f fs IH]; intros k; simpl; [reflexivity|].
  now rewrite IH.
Qed.

Lemma mapNew_fresh (u : nat -> string) (fs : list File) (k : nat) :
  Forall (fun v => status v = pending /\ title v = "" /\ keywords v = []
                   /\ errorMessage v = None /\ thumbnail v = None)
         (mapNew u k fs).
Proof.
  revert k. induction fs as [|f fs IH]; intros k; simpl; constructor.
  - repeat split.
  - apply IH.
Qed.

Lemma skipn_app_exact (A : Type) (l l' : list A) :
  skipn (List.length l) (l ++ l') = l'.
Proof.
  induction l as [|x l IH]; simpl; [reflexivity|exact IH].
Qed.

Lemma firstn_app_exact (A : Type) (l l' : list A) :
  firstn (List.length l) (l ++ l') = l.
Proof.
  induction l as [|x l IH]; simpl; [reflexivity|now rewrite IH].
Qed.

(** X2: a file selection appends one item per file whose type starts with
    [video/], in the order of the files, and drops the others: the queue
    grows by the number of such files, the items already queued and the
    cursor are left as they were, and each new item is pending with no
    thumbnail, title, keywords or error.  A null file list changes
    nothing. *)
Theorem onFileSelected_appends (files : list File) (u : nat -> string)
    (s : AppComponent) :
  List.length (videos (fst (onFileSelected (Some files) u s)))
  = List.length (videos s) + List.length (filter isVideo files)
  /\ firstn (List.length (videos s))
       (videos (fst (onFileSelected (Some files) u s))) = videos s
  /\ map file (skipn (List.length (videos s))
                 (videos (fst (onFileSelected (Some files) u s))))
     = filter isVideo files
  /\ Forall (fun v => status v = pending /\ title v = "" /\ keywords v = []
                      /\ errorMessage v = None /\ thumbnail v = None)
       (skipn (List.length (videos s))
          (videos (fst (onFileSelected (Some files) u s))))
  /\ currentIndex (fst (onFileSelected (Some files) u s)) = currentIndex s
  /\ onFileSelected None u s = (s, []).
Proof.
  rewrite onFileSelected_videos. simpl newVideos.
  rewrite length_app, mapNew_length, firstn_app_exact, skipn_app_exact.
  rewrite mapNew_files.
  repeat split; try apply mapNew_fresh.
  simpl. destruct (negb (isProcessing s)); simpl; trivial.
  unfold startProcessing. simpl. now destruct (apiKeyMissing s).
Qed.

(** ** Which controls are enabled *)

(** X3: the three controls of a running queue and the three of an idle one
    exclude each other: pause and resume are never both enabled and stop is
    enabled exactly when one of them is; while stop is enabled neither
    clear, retry nor download is.  Pausing when pause is enabled enables
    resume, and resuming then restores the component; after a stop none of
    pause, resume and stop is enabled. *)
Theorem controls_exclusive (s : AppComponent) :
  canPause s && canResume s = false
  /\ canStop s = canPause s || canResume s
  /\ (canStop s = true ->
      canClear s = false /\ canRetry s = false /\ canDownload s = false)
  /\ (canPause s = true ->
      canResume (pauseProcessing s) = true
      /\ canPause (pauseProcessing s) = false
      /\ resumeProcessing (pauseProcessing s) = s)
  /\ (canResume s = true ->
      canPause (resumeProcessing s) = true
      /\ pauseProcessing (resumeProcessing s) = s)
  /\ canPause (stopProcessing s) = false
  /\ canResume (stopProcessing s) = false
  /\ canStop (stopProcessing s) = false.
Proof.
  unfold canPause, canResume, canStop, canClear, canRetry, canDownload.
  destruct s as [svc vs p q c k r]; simpl.
  destruct p, q; simpl; repeat split; trivial; try discriminate;
    now rewrite !andb_false_r.
Qed.

Lemma controls_exclusive_witness :
  canResume (pauseProcessing onePending) = true
  /\ canPause (pauseProcessing onePending) = false
  /\ resumeProcessing (pauseProcessing onePending) = onePending.
Proof.
  apply (controls_exclusive onePending). reflexivity.
Defined.

(** X4: whenever download is enabled the export produces a document, and
    the export produces none exactly when no item is completed; whenever
    retry is enabled some item is failed, and on a component with a key the
    retry starts processing from cursor 0 and disables itself. *)
Theorem enabled_means_effective (s : AppComponent) :
  (canDownload s = true -> exists doc, downloadCSV s = Some doc)
  /\ (downloadCSV s = None <-> existsb isCompleted (videos s) = false)
  /\ (canRetry s = true ->
      (exists v, In v (videos s) /\ status v = failed)
      /\ (apiKeyMissing s = false ->
          isProcessing (fst (retryFailed s)) = true
          /\ isPaused (fst (retryFailed s)) = false
          /\ currentIndex (fst (retryFailed s)) = 0
          /\ canRetry (fst (retryFailed s)) = false)).
Proof.
  assert (Hnone : downloadCSV s = None
                  <-> existsb isCompleted (videos s) = false).
  { unfold downloadCSV.
    induction (videos s) as [|v l IH]; simpl; [tauto|].
    destruct (isCompleted v); simpl; [split; discriminate|exact IH]. }
  split; [|split; [exact Hnone|]].
  - unfold canDownload. intros H. apply andb_prop in H. destruct H as [H _].
    destruct (downloadCSV s) as [doc|]; [now exists doc|].
    destruct Hnone as [Hn _]. specialize (Hn eq_refl). congruence.
  - unfold canRetry. intros H. apply andb_prop in H. destruct H as [H Hp].
    split.
    + apply existsb_exists in H. destruct H as [v [Hv Hf]].
      exists v. split; [exact Hv|].
      unfold isFailed in Hf. now destruct (status v).
    + intros Hk. unfold retryFailed, startProcessing. simpl. rewrite Hk.
      simpl. repeat split. now rewrite andb_false_r.
Qed.

Lemma enabled_means_effective_witness :
  (exists doc, downloadCSV quotedTitle = Some doc)
  /\ isProcessing (fst (retryFailed oneDoneOneFailed)) = true.
Proof.
  split.
  - apply (enabled_means_effective quotedTitle). reflexivity.
  - apply (enabled_means_effective oneDoneOneFailed); reflexivity.
Defined.

(** ** The clipboard acknowledgement *)

Lemma getKey_setKey_same (key : string) (b : bool) (o : CopiedState) :
  getKey key (setKey key b o) = Some b.
Proof.
  induction o as [|[k v] o IH]; simpl.
  - now rewrite String.eqb_refl.
  - destruct (k =? key)%string eqn:E; simpl; now rewrite E.
Qed.

Lemma getKey_setKey_other (key key' : string) (b : bool) (o : CopiedState) :
  key' <> key -> getKey key' (setKey key b o) = getKey key' o.
Proof.
  intros Hne. induction o as [|[k v] o IH]; simpl.
  - apply String.eqb_neq in Hne. rewrite String.eqb_sym. now rewrite Hne.
  - destruct (k =? key)%string eqn:E; simpl.
    + apply String.eqb_eq in E. subst k.
      assert ((key =? key')%string = false) as ->; trivial.
      apply String.eqb_neq. congruence.
    + now rewrite IH.
Qed.

Lemma setKey_keys (key : string) (b : bool) (o : CopiedState) :
  getKey key o <> None -> map fst (setKey key b o) = map fst o.
Proof.
  induction o as [|[k v] o IH]; simpl; [congruence|].
  destruct (k =? key)%string; simpl; trivial.
  intros H. now rewrite IH.
Qed.

(** X5: once the clipboard write has resolved, the flag of the copied
    (item, field) key reads true; once its timer has fired it reads false;
    the flag of no other key is ever changed, and the timer adds no key.
    The timer of a first copy clears the flag even when the same field was
    copied again in between. *)
Theorem copied_flag_lifecycle (type_ id_ : string) (o : CopiedState) :
  getKey (copiedKey type_ id_) (copied_written type_ id_ o) = Some true
  /\ getKey (copiedKey type_ id_)
       (copied_expired type_ id_ (copied_written type_ id_ o)) = Some false
  /\ map fst (copied_expired type_ id_ (copied_written type_ id_ o))
     = map fst (copied_written type_ id_ o)
  /\ getKey (copiedKey type_ id_)
       (copied_expired type_ id_
          (copied_written type_ id_ (copied_written type_ id_ o)))
     = Some false
  /\ forall key, key <> copiedKey type_ id_ ->
       getKey key (copied_written type_ id_ o) = getKey key o
       /\ getKey key (copied_expired type_ id_ o) = getKey key o.
Proof.
  unfold copied_written, copied_expired.
  rewrite !getKey_setKey_same. repeat split; trivial.
  - apply setKey_keys. rewrite getKey_setKey_same. discriminate.
  - now apply getKey_setKey_other.
  - now apply getKey_setKey_other.
Qed.

(** ** The image parts of the inference request *)

Lemma split_nonempty (c : ascii) (str : string) : split c str <> [].
Proof.
  destruct str as [|a str]; simpl; [discriminate|].
  destruct (Ascii.eqb a c); [discriminate|].
  destruct (split c str); discriminate.
Qed.

Lemma split_without (c : ascii) (str : string) :
  occurs c str = false -> split c str = [str].
Proof.
  induction str as [|a str IH]; simpl; [reflexivity|].
  intros H. apply orb_false_elim in H. destruct H as [Ha Hs].
  rewrite Ha, IH; trivial.
Qed.

Lemma split_at_first (c : ascii) (p q : string) :
  occurs c p = false ->
  split c (p ++ String c q)%string = p :: split c q.
Proof.
  induction p as [|a p IH]; simpl; intros H.
  - now rewrite Ascii.eqb_refl.
  - apply orb_false_elim in H. destruct H as [Ha Hp].
    rewrite Ha, IH; trivial.
Qed.

(** X6: splitting a string at a character and joining the pieces with that
    character gives the string back.  For a data URL whose header has no
    comma, [frame.split(',')[1]] is the payload up to its first comma, the
    whole payload when it has none (as base64 has none); a frame without a
    comma yields [undefined]. *)
Theorem inlineData_payload (c : ascii) (str header payload : string) :
  join (String c "") (split c str) = str
  /\ (occurs comma header = false ->
      occurs comma payload = false ->
      inlineData (header ++ String comma payload) = Some payload)
  /\ (occurs comma str = false -> inlineData str = None).
Proof.
  split; [|split].
  - induction str as [|a str IH]; simpl; [reflexivity|].
    destruct (Ascii.eqb a c) eqn:E.
    + apply Ascii.eqb_eq in E. subst a.
      destruct (split c str) as [|p ps] eqn:Es;
        [now destruct (split_nonempty c str)|].
      change (join (String c "") ("" :: p :: ps))
        with (String c (join (String c "") (p :: ps))).
      now rewrite IH.
    + destruct (split c str) as [|p ps] eqn:Es;
        [now destruct (split_nonempty c str)|].
      destruct ps as [|q qs]; simpl in *; now rewrite <- IH.
  - intros Hh Hp. unfold inlineData.
    rewrite split_at_first, split_without; trivial.
  - intros H. unfold inlineData. now rewrite split_without.
Qed.

Lemma inlineData_payload_witness :
  inlineData ("data:image/jpeg;base64" ++ String comma "AAAA") = Some "AAAA".
Proof.
  apply (inlineData_payload comma "" "data:image/jpeg;base64" "AAAA");
    reflexivity.
Defined.

(** ** The extractors on every resource *)

Section ExtractorFacts.
Context {JN : JsNumber}.

Lemma created_app (l1 l2 : list DomEvent) :
  created (l1 ++ l2) = created l1 + created l2.
Proof.
  induction l1 as [|e l1 IH]; simpl; [reflexivity|].
  destruct e; simpl; now rewrite IH.
Qed.

Lemma revoked_app (l1 l2 : list DomEvent) :
  revoked (l1 ++ l2) = revoked l1 + revoked l2.
Proof.
  induction l1 as [|e l1 IH]; simpl; [reflexivity|].
  destruct e; simpl; now rewrite IH.
Qed.

Lemma iterations_urls (dec : Decoder) (interval : num) (l : list nat) :
  created (flat_map (iteration dec interval) l) = 0
  /\ revoked (flat_map (iteration dec interval) l) = 0.
Proof.
  induction l as [|k l IH]; simpl; [now split|exact IH].
Qed.

Lemma extractFrames_log (dec : Decoder) (f : File) (n : nat)
    (D : num) (w h : nat) :
  context2d dec = true ->
  loadedmetadata dec = Some (D, w, h) ->
  extractFrames dec f n =
  (Resolved (map (fun k => render dec (nmul (ndiv D (of_nat (n + 1)))
                                         (of_nat k))) (seq 1 n)),
   CreateObjectURL f :: SetCanvasSize w h
   :: flat_map (iteration dec (ndiv D (of_nat (n + 1)))) (seq 1 n)
      ++ [RevokeObjectURL]).
Proof.
  intros Hc Hl. unfold extractFrames. rewrite Hc, Hl. simpl negb. cbv iota.
  rewrite seekLoop_unfold. reflexivity.
Qed.

(** X7: whatever the resource does, [extractFrames] either resolves with
    exactly [frameCount] frames after [frameCount] seeks (none for a count
    of 0), which happens exactly when the canvas context is available and
    the resource loads, or rejects with [Canvas context not available]
    (before touching the resource) or with [Failed to load video file.]. *)
Theorem extractFrames_outcomes (dec : Decoder) (f : File) (n : nat) :
  match fst (extractFrames dec f n) with
  | Resolved frames =>
      context2d dec = true /\ loadedmetadata dec <> None
      /\ List.length frames = n
      /\ List.length (seeks (snd (extractFrames dec f n))) = n
  | Rejected e =>
      (context2d dec = false
       /\ e = ErrorObj "Canvas context not available"
       /\ snd (extractFrames dec f n) = [])
      \/ (context2d dec = true /\ loadedmetadata dec = None
          /\ e = ErrorObj "Failed to load video file.")
  end.
Proof.
  destruct (context2d dec) eqn:Hc.
  - destruct (loadedmetadata dec) as [[[D w] h]|] eqn:Hl.
    + rewrite (extractFrames_log dec f n Hc Hl). simpl fst. simpl snd.
      repeat split; try discriminate.
      * now rewrite length_map, length_seq.
      * simpl. rewrite seeks_app, seeks_iterations. simpl.
        now rewrite app_nil_r, length_map, length_seq.
    + unfold extractFrames. rewrite Hc, Hl. simpl. right. now repeat split.
  - unfold extractFrames. rewrite Hc. simpl. left. now repeat split.
Qed.

(** X8: both extractors release what they acquire: in every run, resolved
    or rejected, the log has as many [revokeObjectURL] as
    [createObjectURL], at most one of each, and the revocation is the last
    event; without a canvas context no URL is created at all. *)
Theorem object_urls_released (dec : Decoder) (f : File) (n : nat) (t : num) :
  created (snd (extractFrames dec f n)) = revoked (snd (extractFrames dec f n))
  /\ created (snd (extractFrames dec f n)) <= 1
  /\ (snd (extractFrames dec f n) = []
      \/ exists log, snd (extractFrames dec f n) = log ++ [RevokeObjectURL])
  /\ created (snd (extractSingleFrame dec f t))
     = revoked (snd (extractSingleFrame dec f t))
  /\ created (snd (extractSingleFrame dec f t)) <= 1
  /\ (snd (extractSingleFrame dec f t) = []
      \/ exists log,
           snd (extractSingleFrame dec f t) = log ++ [RevokeObjectURL])
  /\ (context2d dec = false ->
      created (snd (extractFrames dec f n)) = 0
      /\ created (snd (extractSingleFrame dec f t)) = 0).
Proof.
  destruct (context2d dec) eqn:Hc.
  - destruct (loadedmetadata dec) as [[[D w] h]|] eqn:Hl.
    + rewrite (extractFrames_log dec f n Hc Hl). unfold extractSingleFrame.
      rewrite Hc, Hl. simpl.
      destruct (iterations_urls dec (ndiv D (of_nat (n + 1))) (seq 1 n))
        as [H1 H2].
      rewrite created_app, revoked_app, H1, H2. simpl.
      repeat split; trivial; try lia; try discriminate.
      * right.
        exists (CreateObjectURL f :: SetCanvasSize w h
                :: flat_map (iteration dec (ndiv D (of_nat (n + 1))))
                     (seq 1 n)).
        reflexivity.
      * right.
        exists [CreateObjectURL f; SetCurrentTime (nmin t D); Seeked;
                SetCanvasSize w h; DrawImage;
                ToDataURL (render dec (nmin t D))].
        reflexivity.
    + unfold extractFrames, extractSingleFrame. rewrite Hc, Hl. simpl.
      repeat split; trivial; try lia; try discriminate;
        right; now exists [CreateObjectURL f].
  - unfold extractFrames, extractSingleFrame. rewrite Hc. simpl.
    repeat split; trivial; try lia; now left.
Qed.

End ExtractorFacts.

Lemma object_urls_released_witness :
  @created QNumber
    (snd (@extractFrames QNumber
            (@Build_Decoder QNumber false None (fun _ => "")) clip 8)) = 0.
Proof.
  apply (@object_urls_released QNumber
           (@Build_Decoder QNumber false None (fun _ => "")) clip 8 (0 # 1)%Q).
  reflexivity.
Defined.

(** ** More invariants of the event loop *)

Lemma whileLoop_shape (fuel : nat) (s : AppComponent) :
  List.length (videos s) - currentIndex s < fuel ->
  loopShape s (whileLoop fuel s).
Proof.
  revert s. induction fuel as [|fuel IH]; intros s Hf; [lia|]. simpl.
  assert (Hret : loopShape s (Returned (epilogue s))).
  { simpl. unfold epilogue.
    destruct (List.length (videos s) <=? currentIndex s); simpl;
      repeat split; trivial; try lia; discriminate. }
  destruct (currentIndex s <? List.length (videos s)) eqn:E;
    [|exact Hret].
  apply Nat.ltb_lt in E.
  destruct (isProcessing s) eqn:Hp; [|exact Hret].
  destruct (isPaused s) eqn:Hq; [exact Hret|]. simpl.
  destruct (nth_error (videos s) (currentIndex s)) as [video|] eqn:En;
    [|apply nth_error_None in En; lia].
  destruct (eligible (status video)) eqn:He.
  - simpl. exists video. repeat split; trivial.
  - assert (Hf' : List.length (videos (currentIndex_update S s))
                  - currentIndex (currentIndex_update S s) < fuel)
      by (simpl; lia).
    specialize (IH (currentIndex_update S s) Hf'). clear Hret.
    destruct (whileLoop fuel (currentIndex_update S s)) as [s' t|s'| |];
      trivial.
    + destruct IH as [v0 [H1 [H2 [H3 [H4 [H5 H6]]]]]]. exists v0.
      cbn [videos currentIndex currentIndex_update apiKeyMissing
           geminiService isPaused isProcessing processQueueRunning] in *.
      repeat split; trivial; try apply H6. lia.
    + destruct IH as [H1 [H2 [H3 H4]]].
      cbn [videos currentIndex currentIndex_update apiKeyMissing
           geminiService isPaused isProcessing processQueueRunning] in *.
      repeat split; trivial; try apply H4; lia.
Qed.

Lemma processQueue_loop_shape (s : AppComponent) :
  loopShape s (processQueue_loop s).
Proof.
  apply whileLoop_shape. lia.
Qed.

Section LoopInvariantFacts.
Context {JN : JsNumber}.

Lemma boot_loopInvariant (API_KEY : option string) :
  loopInvariant (boot API_KEY).
Proof.
  constructor; simpl; try lia; try congruence; try contradiction.
  intros _. constructor.
Qed.

(** The loop resumed on a component with no item in [processing]. *)
Lemma loop_loopInvariant (s1 : AppComponent) (sys sys' : System) :
  apiKeyMissing s1 = false ->
  currentIndex s1 <= List.length (videos s1) + 1 ->
  (forall v, In v (videos s1) -> status v <> processing) ->
  (forall v, In v (videos s1) -> status v = failed ->
             exists m, errorMessage v = Some m /\ In m knownMessages) ->
  install (processQueue_loop s1) sys = Some sys' ->
  loopInvariant sys'.
Proof.
  intros Hk Hc Hnp Hm E.
  pose proof (processQueue_loop_shape s1) as Hs.
  destruct (processQueue_loop s1) as [s' t|s'| |]; simpl in *;
    try contradiction; injection E as <-.
  - destruct Hs as [v0 [-> [Hn [He [Hv [Hle [_ [Hk' [_ _]]]]]]]]].
    assert (Hlen : List.length (videos s') = List.length (videos s1)).
    { rewrite Hv. simpl. apply length_map. }
    assert (Hlt : currentIndex s' < List.length (videos s1)).
    { apply nth_error_Some. congruence. }
    constructor; simpl; try lia.
    + intros _. congruence.
    + intros v Hin Hst. rewrite Hv in Hin. simpl in Hin.
      apply in_map_iff in Hin. destruct Hin as [y [<- Hy]].
      destruct (id y =? id v0)%string eqn:Ey.
      * apply String.eqb_eq in Ey. exists (AwaitFrames v0). now split.
      * now destruct (Hnp y Hy).
    + intros v Hin Hst. rewrite Hv in Hin. simpl in Hin.
      apply in_map_iff in Hin. destruct Hin as [y [<- Hy]].
      destruct (id y =? id v0)%string; [discriminate|]. now apply Hm.
    + intros Hk2. congruence.
  - destruct Hs as [Hv [Hle [Hmax [_ [Hk' _]]]]].
    constructor; simpl; rewrite ?Hv; try lia; try congruence.
    + intros v Hin Hst. now destruct (Hnp v Hin).
    + exact Hm.
Qed.

Lemma result_not_processing (idv : string) (st : Status) (t : string)
    (ks : list string) (e : option string) (s : AppComponent) :
  st <> processing ->
  (forall v, In v (videos s) -> status v = processing -> id v = idv) ->
  forall v, In v (videos (updateVideoResult idv st t ks e s)) ->
            status v <> processing.
Proof.
  intros Hst Hp v Hin. simpl in Hin. apply in_map_iff in Hin.
  destruct Hin as [y [<- Hy]].
  destruct (id y =? idv)%string eqn:Ey; simpl; trivial.
  intros Hs. apply String.eqb_neq in Ey. apply Ey. now apply Hp.
Qed.

Lemma result_messages (idv : string) (st : Status) (t : string)
    (ks : list string) (e : option string) (s : AppComponent) :
  (st = failed -> exists m, e = Some m /\ In m knownMessages) ->
  (forall v, In v (videos s) -> status v = failed ->
             exists m, errorMessage v = Some m /\ In m knownMessages) ->
  forall v, In v (videos (updateVideoResult idv st t ks e s)) ->
            status v = failed ->
            exists m, errorMessage v = Some m /\ In m knownMessages.
Proof.
  intros He Hm v Hin. simpl in Hin. apply in_map_iff in Hin.
  destruct Hin as [y [<- Hy]].
  destruct (id y =? idv)%string; simpl; [exact He|now apply Hm].
Qed.

(** The in-flight step finished with some result, then the loop. *)
Lemma settle_loopInvariant (video : VideoMetadata) (st : Status)
    (t : string) (ks : list string) (e : option string)
    (sys sys' : System) (task0 : Task) :
  loopInvariant sys ->
  task sys = Some task0 ->
  task_video task0 = video ->
  st <> processing ->
  (st = failed -> exists m, e = Some m /\ In m knownMessages) ->
  install
    (processQueue_loop
       (currentIndex_update S
          (updateVideoResult (id video) st t ks e (app sys)))) sys
  = Some sys' ->
  loopInvariant sys'.
Proof.
  intros [Hc Hcb Hk Hp Hm Hu] Ht Hv Hst He E.
  assert (Hbusy : task sys <> None) by congruence.
  eapply loop_loopInvariant; [| | | |exact E].
  - simpl. now apply Hk.
  - simpl. rewrite length_map. specialize (Hcb Hbusy). lia.
  - apply result_not_processing; trivial.
    intros v Hin Hs. destruct (Hp v Hin Hs) as [t0 [Et <-]].
    congruence.
  - apply result_messages; trivial.
Qed.

Lemma onFileSelected_fields (files : option (list File)) (u : nat -> string)
    (s : AppComponent) :
  apiKeyMissing (fst (onFileSelected files u s)) = apiKeyMissing s
  /\ currentIndex (fst (onFileSelected files u s)) = currentIndex s.
Proof.
  destruct files as [fs|]; simpl; [|now split].
  destruct (negb (isProcessing s)); simpl; [|now split].
  unfold startProcessing. simpl.
  destruct (apiKeyMissing s) eqn:E; simpl; rewrite ?E; now split.
Qed.

Lemma newVideos_pending (files : option (list File)) (u : nat -> string) :
  Forall (fun v => status v = pending) (newVideos files u).
Proof.
  destruct files as [fs|]; simpl; [|constructor].
  eapply Forall_impl; [|apply mapNew_fresh]. intros v H. apply H.
Qed.

Lemma exec_loopInvariant (a : Action) (sys sys' : System) :
  systemInvariant sys ->
  taskInvariant sys ->
  loopInvariant sys ->
  exec a sys = Some sys' ->
  loopInvariant sys'.
Proof.
  intros Hsys Htask Hloop E.
  pose proof Hloop as [Hc Hcb Hk Hp Hm Hu].
  pose proof Htask as [Hidle Hbusy].
  destruct a; simpl in E.
  - (* files *)
    destruct (distinct _); [|discriminate]. injection E as <-.
    destruct (onFileSelected_fields files randomUUID (app sys)) as [Ek Ec].
    pose proof (onFileSelected_videos files randomUUID (app sys)) as Ev.
    pose proof (newVideos_pending files randomUUID) as Hnew.
    rewrite Forall_forall in Hnew.
    constructor; simpl; rewrite ?Ev, ?Ek, ?Ec, ?length_app; trivial.
    + lia.
    + intros Ht. specialize (Hcb Ht). lia.
    + intros v Hin Hs. apply in_app_or in Hin.
      destruct Hin as [Hin|Hin]; [now apply Hp|].
      rewrite (Hnew v Hin) in Hs. discriminate.
    + intros v Hin Hs. apply in_app_or in Hin.
      destruct Hin as [Hin|Hin]; [now apply Hm|].
      rewrite (Hnew v Hin) in Hs. discriminate.
    + intros Hk1. apply Forall_app. split; [now apply Hu|].
      now apply Forall_forall.
  - (* start *)
    injection E as <-.
    constructor; simpl; unfold startProcessing;
      destruct (apiKeyMissing (app sys)) eqn:Ek; simpl; trivial;
      rewrite ?Ek; trivial; discriminate.
  - injection E as <-. constructor; simpl; trivial.
  - injection E as <-. constructor; simpl; trivial.
  - (* stop *)
    injection E as <-. constructor; simpl; trivial; lia.
  - (* retry *)
    injection E as <-.
    constructor; simpl; unfold retryFailed, startProcessing; simpl;
      destruct (apiKeyMissing (app sys)) eqn:Ek; simpl; trivial;
      rewrite ?Ek; trivial; try lia; discriminate.
  - (* clear *)
    injection E as <-. constructor; simpl; trivial; try lia;
      try contradiction.
  - now injection E as <-.
  - (* effect *)
    destruct (isProcessing (app sys) && negb (isPaused (app sys))
              && negb (processQueueRunning (app sys))) eqn:Hen;
      [|now injection E as <-].
    apply andb_prop in Hen. destruct Hen as [Hen Hr].
    apply andb_prop in Hen. destruct Hen as [Hproc _].
    apply negb_true_iff in Hr.
    assert (Hnone : task sys = None).
    { destruct (task sys) as [t|] eqn:Et; trivial.
      destruct (Hbusy t eq_refl) as [[Hrun _] _]. congruence. }
    unfold processQueue_start in E.
    eapply loop_loopInvariant; [| | | |exact E]; simpl; trivial.
    + destruct (apiKeyMissing (app sys)) eqn:Ek; trivial.
      destruct Hsys as [[_ Hi _ _] _ _ _ _ _]. rewrite (Hi Ek) in Hproc.
      discriminate.
    + intros v Hin Hs. destruct (Hp v Hin Hs) as [t [Et _]]. congruence.
  - (* frames *)
    destruct (task sys) as [[video|video frames]|] eqn:Et; try discriminate.
    pose proof (extractFrames_outcomes dec (file video) 8) as Ho.
    destruct (fst (extractFrames dec (file video) 8)) as [frames|e];
      simpl in E.
    + injection E as <-. constructor; simpl; trivial.
      * intros _. apply Hcb. congruence.
      * intros _. apply Hk. congruence.
      * intros v Hin Hs. destruct (Hp v Hin Hs) as [t [Ht Hid]].
        injection Ht as <-.
        exists (AwaitMetadata video frames). now split.
    + eapply (@settle_loopInvariant video failed "" []); eauto;
        try discriminate.
      intros _.
      destruct Ho as [[_ [-> _]]|[_ [_ ->]]]; eexists;
        (split; [reflexivity|]); simpl; auto.
  - (* metadata *)
    destruct (task sys) as [[video|video frames]|] eqn:Et; try discriminate.
    assert (Hai : isConfigured (geminiService (app sys)) = true).
    { destruct Hsys as [[Hg _ _ _] _ _ _ _ _].
      rewrite Hk in Hg by congruence. symmetry in Hg.
      now apply negb_false_iff in Hg. }
    unfold isConfigured in Hai. unfold generateMetadataFromFrames in E.
    destruct (ai (geminiService (app sys))); [|discriminate].
    destruct reply as [m|]; simpl in E.
    + eapply (@settle_loopInvariant video completed); eauto;
        discriminate.
    + eapply (@settle_loopInvariant video failed "" []); eauto;
        try discriminate.
      intros _. eexists. split; [reflexivity|]. simpl. auto.
  - (* thumbnail *)
    destruct (nth_error _ _) as [video|]; [|discriminate].
    injection E as <-.
    destruct (fst (extractSingleFrame dec (file video) (of_nat 1)))
      as [frame|e]; simpl; [|constructor; simpl; trivial].
    constructor; simpl; rewrite ?length_map; trivial.
    + intros v Hin Hs. apply in_map_iff in Hin.
      destruct Hin as [y [<- Hy]].
      destruct (id y =? id video)%string; simpl in *; now apply Hp.
    + intros v Hin Hs. apply in_map_iff in Hin.
      destruct Hin as [y [<- Hy]].
      destruct (id y =? id video)%string; simpl in *; now apply Hm.
    + intros Hk1. specialize (Hu Hk1). rewrite Forall_forall in *.
      intros v Hin. apply in_map_iff in Hin.
      destruct Hin as [y [<- Hy]].
      destruct (id y =? id video)%string; simpl; now apply Hu.
Qed.

Lemma run_loopInvariant (acts : list Action) (sys sys' : System) :
  systemInvariant sys ->
  taskInvariant sys ->
  loopInvariant sys ->
  run acts sys = Some sys' ->
  loopInvariant sys'.
Proof.
  revert sys. induction acts as [|a acts IH]; intros sys Hs Ht Hl E;
    simpl in E.
  - now injection E as <-.
  - destruct (exec a sys) as [sys1|] eqn:E1; [|discriminate].
    apply (IH sys1); trivial.
    + eapply exec_invariant; eauto.
    + eapply exec_stepped; eauto.
    + eapply exec_loopInvariant; eauto.
Qed.

Lemma reachable_loopInvariant (API_KEY : option string) (sys : System) :
  reachable API_KEY sys ->
  systemInvariant sys /\ taskInvariant sys /\ loopInvariant sys.
Proof.
  intros Hr. destruct (reachable_taskInvariant Hr) as [Hs Ht].
  destruct Hr as [acts E]. split; [exact Hs|]. split; [exact Ht|].
  eapply run_loopInvariant; [| | |exact E].
  - apply boot_invariant.
  - apply boot_taskInvariant.
  - apply boot_loopInvariant.
Qed.

End LoopInvariantFacts.

Lemma position_by_id (l : list VideoMetadata) (i j : nat)
    (v w : VideoMetadata) :
  NoDup (map id l) ->
  nth_error l i = Some v -> nth_error l j = Some w -> id v = id w -> i = j.
Proof.
  intros Hnd Hi Hj E.
  apply (proj1 (NoDup_nth_error (map id l)) Hnd).
  - rewrite length_map. apply nth_error_Some. congruence.
  - rewrite !nth_error_map, Hi, Hj. simpl. now rewrite E.
Qed.

Section LoopInvariantClaims.
Context {JN : JsNumber}.

(** X9: without a key nothing is ever processed: in every reachable state
    of an unconfigured component no traversal is suspended or running,
    [isProcessing] is false, every item is still pending with no title,
    keywords or error, and no extraction or inference can settle. *)
Theorem no_key_no_work (API_KEY : option string) (sys : System) :
  reachable API_KEY sys ->
  isConfigured (geminiService (app sys)) = false ->
  task sys = None
  /\ processQueueRunning (app sys) = false
  /\ isProcessing (app sys) = false
  /\ Forall (fun v => status v = pending /\ title v = ""
                      /\ keywords v = [] /\ errorMessage v = None)
       (videos (app sys))
  /\ (forall dec, exec (FramesSettled dec) sys = None)
  /\ (forall reply, exec (MetadataSettled reply) sys = None).
Proof.
  intros Hr Hc.
  destruct (reachable_loopInvariant Hr) as [Hs [Ht Hl]].
  destruct Hs as [[Hg Hi _ Hitems] _ _ _ _ _].
  assert (Hk : apiKeyMissing (app sys) = true) by (now rewrite Hg, Hc).
  assert (Hnone : task sys = None).
  { destruct (task sys) as [t|] eqn:Et; trivial.
    assert (apiKeyMissing (app sys) = false)
      by (apply (li_configured Hl); congruence).
    congruence. }
  split; [exact Hnone|]. split; [now apply (task_idle Ht)|].
  split; [now apply Hi|]. split.
  - pose proof (li_unconfigured Hl Hk) as Hp.
    rewrite Forall_forall in *. intros v Hv.
    specialize (Hp v Hv). destruct (Hitems v Hv) as [He Hc'].
    split; [exact Hp|].
    destruct Hc' as [H1 H2]; [congruence|]. repeat split; trivial.
    destruct (errorMessage v); trivial.
    assert (status v = failed) by (apply He; discriminate). congruence.
  - split; intros x; simpl; now rewrite Hnone.
Qed.


(** X11: in every reachable state an item in [processing] is the one the
    suspended traversal awaits: when no traversal is suspended no item is
    processing, and two positions of the queue never hold a processing
    item each. *)
Theorem at_most_one_processing (API_KEY : option string) (sys : System) :
  reachable API_KEY sys ->
  (forall v, In v (videos (app sys)) -> status v = processing ->
             exists t, task sys = Some t /\ id (task_video t) = id v)
  /\ (task sys = None ->
      forall v, In v (videos (app sys)) -> status v <> processing)
  /\ (forall i j v w,
        nth_error (videos (app sys)) i = Some v ->
        nth_error (videos (app sys)) j = Some w ->
        status v = processing -> status w = processing -> i = j).
Proof.
  intros Hr.
  destruct (reachable_loopInvariant Hr) as [Hs [_ Hl]].
  pose proof (li_processing Hl) as Hp.
  split; [exact Hp|]. split.
  - intros Hn v Hv Hst. destruct (Hp v Hv Hst) as [t [Et _]]. congruence.
  - intros i j v w Hi Hj Hv Hw.
    destruct (Hp v (nth_error_In _ _ Hi) Hv) as [t [Et Ev]].
    destruct (Hp w (nth_error_In _ _ Hj) Hw) as [t' [Et' Ew]].
    assert (t' = t) as -> by congruence.
    eapply position_by_id; eauto; [apply Hs|congruence].
Qed.

(** X12: in every reachable state the cursor is at most one past the end
    of the queue, and within the queue's length while a traversal is
    suspended. *)
Theorem cursor_bounded (API_KEY : option string) (sys : System) :
  reachable API_KEY sys ->
  currentIndex (app sys) <= List.length (videos (app sys)) + 1
  /\ (task sys <> None ->
      currentIndex (app sys) <= List.length (videos (app sys))).
Proof.
  intros Hr. destruct (reachable_loopInvariant Hr) as [_ [_ Hl]].
  split; apply Hl.
Qed.

End LoopInvariantClaims.

Lemma awaitingFrames_reachable :
  @reachable QNumber (Some "key") awaitingFrames.
Proof.
  exists [FileSelected (Some [clip]) sampleUUID; EffectRun]. reflexivity.
Defined.

Lemma no_key_no_work_witness :
  task unconfiguredStopped = None
  /\ processQueueRunning (app unconfiguredStopped) = false
  /\ isProcessing (app unconfiguredStopped) = false
  /\ Forall (fun v => status v = pending /\ title v = ""
                      /\ keywords v = [] /\ errorMessage v = None)
       (videos (app unconfiguredStopped))
  /\ (forall dec, @exec QNumber (FramesSettled dec) unconfiguredStopped = None)
  /\ (forall reply,
        @exec QNumber (MetadataSettled reply) unconfiguredStopped = None).
Proof.
  apply (@no_key_no_work QNumber None unconfiguredStopped).
  - exact unconfiguredStopped_reachable.
  - reflexivity.
Defined.


Lemma at_most_one_processing_witness :
  exists t, task awaitingFrames = Some t /\ id (task_video t) = "3f2a".
Proof.
  destruct (@at_most_one_processing QNumber (Some "key") awaitingFrames
              awaitingFrames_reachable) as [H _].
  apply (H {| id := "3f2a"; file := clip; thumbnail := None;
              status := processing; title := ""; keywords := [];
              errorMessage := None |}).
  - left. reflexivity.
  - reflexivity.
Defined.

Lemma cursor_bounded_witness :
  currentIndex (app afterFailure)
  <= List.length (videos (app afterFailure)) + 1.
Proof.
  apply (@cursor_bounded QNumber (Some "key") afterFailure).
  exact afterFailure_reachable.
Defined.

(** ** Whole traversals *)

Section PassFacts.
Context {JN : JsNumber}.
Variable env : Env.

Lemma swept_nth (svc : GeminiService) (c : nat) (vs : list VideoMetadata)
    (j : nat) :
  c <= List.length vs ->
  nth_error (firstn c vs ++ sweep svc env c (skipn c vs)) j
  = if j <? c then nth_error vs j
    else option_map
           (fun v => if eligible (status v) then outcome svc env j v else v)
           (nth_error vs j).
Proof.
  intros Hc.
  assert (Hlen : List.length (firstn c vs) = c)
    by (rewrite length_firstn; lia).
  destruct (j <? c) eqn:E.
  - rewrite nth_error_app1 by (apply Nat.ltb_lt in E; lia).
    now rewrite nth_error_firstn, E.
  - apply Nat.ltb_ge in E. rewrite nth_error_app2 by lia.
    rewrite Hlen, sweep_nth, nth_error_skipn.
    replace (c + (j - c)) with j by lia.
    now destruct (nth_error vs j).
Qed.

Lemma outcome_settled (svc : GeminiService) (j : nat) (v : VideoMetadata) :
  id (outcome svc env j v) = id v
  /\ file (outcome svc env j v) = file v
  /\ thumbnail (outcome svc env j v) = thumbnail v
  /\ (status (outcome svc env j v) = completed
      \/ status (outcome svc env j v) = failed).
Proof.
  unfold outcome.
  destruct (fst (extractFrames (decoderAt env j) (file v) 8)) as [frames|e];
    [|simpl; auto].
  destruct (generateMetadataFromFrames svc frames (replyAt env j));
    simpl; auto.
Qed.

(** X13: an uninterrupted traversal of a running component with unique
    identifiers always returns, with the cursor at the end of the queue and
    [isProcessing] false.  It never goes back: the items before the cursor
    are exactly as they were, pending and failed ones included.  From the
    cursor on, every item that was pending or failed is completed or failed
    afterwards, with its identifier, file and thumbnail, and every other
    item is as it was. *)
Theorem traversal_complete (s : AppComponent) :
  NoDup (map id (videos s)) ->
  isProcessing s = true ->
  isPaused s = false ->
  currentIndex s <= List.length (videos s) ->
  exists s' log,
    processQueue env s = (Returned s', log)
    /\ List.length (videos s') = List.length (videos s)
    /\ currentIndex s' = List.length (videos s)
    /\ isProcessing s' = false
    /\ processQueueRunning s' = false
    /\ (forall j, j < currentIndex s ->
          nth_error (videos s') j = nth_error (videos s) j)
    /\ (forall j v, currentIndex s <= j ->
          nth_error (videos s) j = Some v ->
          exists v',
            nth_error (videos s') j = Some v'
            /\ id v' = id v /\ file v' = file v
            /\ thumbnail v' = thumbnail v
            /\ (eligible (status v) = true ->
                status v' = completed \/ status v' = failed)
            /\ (eligible (status v) = false -> v' = v)).
Proof.
  intros Hnd Hp Hq Hc. rewrite processQueue_sweep by trivial.
  eexists. eexists. split; [reflexivity|]. simpl.
  assert (Hlen : List.length
                   (firstn (currentIndex s) (videos s)
                    ++ sweep (geminiService s) env (currentIndex s)
                         (skipn (currentIndex s) (videos s)))
                 = List.length (videos s)).
  { rewrite length_app, sweep_length, <- length_app, firstn_skipn.
    reflexivity. }
  split; [exact Hlen|]. split; [exact Hlen|].
  split; [reflexivity|]. split; [reflexivity|]. split.
  - intros j Hj. rewrite swept_nth by trivial.
    apply Nat.ltb_lt in Hj. now rewrite Hj.
  - intros j v Hj Hv. rewrite swept_nth by trivial.
    apply Nat.ltb_ge in Hj. rewrite Hj, Hv. simpl.
    eexists. split; [reflexivity|].
    destruct (eligible (status v)).
    + destruct (outcome_settled (geminiService s) j v) as [H1 [H2 [H3 H4]]].
      repeat split; trivial. discriminate.
    + repeat split; trivial. discriminate.
Qed.

(** X14: pausing holds the traversal at the item boundary and resuming
    picks it up unchanged: a loop that finds the component paused returns
    without touching queue or cursor, and the traversal started by the
    effect after a resume makes the same requests and ends in the same
    state as the loop would have without the pause. *)
Theorem pause_then_resume (s : AppComponent) :
  isProcessing s = true ->
  isPaused s = false ->
  processQueueRunning s = true ->
  exists p,
    processQueue_loop (pauseProcessing s) = Returned p
    /\ videos p = videos s
    /\ currentIndex p = currentIndex s
    /\ isPaused p = true
    /\ processQueueRunning p = false
    /\ runEffect env (resumeProcessing p)
       = drain (2 * (List.length (videos s) - currentIndex s)) env
           (processQueue_loop s) [].
Proof.
  intros Hp Hq Hr. rewrite processQueue_loop_unfold.
  destruct s as [svc vs p q c k r]. simpl in *. subst p q r.
  rewrite andb_false_r. eexists. split; [reflexivity|].
  unfold epilogue. simpl.
  destruct (List.length vs <=? c) eqn:E; simpl;
    repeat split; unfold runEffect, effectBody; simpl.
  - rewrite processQueue_loop_unfold. simpl.
    apply Nat.leb_le in E.
    assert ((c <? List.length vs) = false) as ->
      by (apply Nat.ltb_ge; lia).
    simpl. unfold epilogue. simpl.
    assert ((List.length vs <=? c) = true) as ->
      by (apply Nat.leb_le; lia).
    replace (List.length vs - c) with 0 by lia. reflexivity.
Qed.

End PassFacts.

Lemma traversal_complete_witness :
  exists s' log,
    @processQueue QNumber allGood onePending = (Returned s', log)
    /\ map status (videos s') = [completed]
    /\ currentIndex s' = 1.
Proof.
  destruct (@traversal_complete QNumber allGood onePending)
    as [s' [log [E [_ [Hc [_ [_ [_ H]]]]]]]].
  - apply distinct_NoDup. reflexivity.
  - reflexivity.
  - reflexivity.
  - simpl. lia.
  - exists s', log. split; [exact E|]. split; [|exact Hc].
    pose proof E as E'. vm_compute in E'. injection E' as Es _.
    rewrite <- Es. reflexivity.
Defined.

Lemma pause_then_resume_witness :
  exists p,
    processQueue_loop (pauseProcessing (processQueueRunning_set true onePending))
    = Returned p
    /\ isPaused p = true
    /\ fst (@runEffect QNumber allGood (resumeProcessing p))
       = fst (@processQueue QNumber allGood onePending).
Proof.
  destruct (@pause_then_resume QNumber allGood
              (processQueueRunning_set true onePending)
              eq_refl eq_refl eq_refl) as [p [E [_ [_ [Hq [_ Hrun]]]]]].
  exists p. split; [exact E|]. split; [exact Hq|].
  rewrite Hrun. reflexivity.
Defined.

(** ** Stopping *)

Lemma update_other (idv : string) (g : VideoMetadata -> VideoMetadata)
    (l : list VideoMetadata) (j : nat) (v : VideoMetadata) :
  nth_error l j = Some v -> id v <> idv ->
  nth_error (map (fun x => if (id x =? idv)%string then g x else x) l) j
  = Some v.
Proof.
  intros Hj Hne. rewrite nth_error_map, Hj. simpl.
  apply String.eqb_neq in Hne. now rewrite Hne.
Qed.


Section StopClaims.
Context {JN : JsNumber}.


End StopClaims.


(** ** Submission and the cursor *)

Section SubmissionClaims.
Context {JN : JsNumber}.
Variable env : Env.

(** X16: files selected on an idle component with a key start a traversal
    that always returns and leaves [isProcessing] false.  A new item is
    processed by it (ending completed or failed) exactly when the cursor is
    not past the item's position; a new item at a position before the
    cursor, as after a stop that let a step finish, is left pending. *)
Theorem submission_and_cursor (s : AppComponent) (files : list File)
    (u : nat -> string) :
  apiKeyMissing s = false ->
  isProcessing s = false ->
  processQueueRunning s = false ->
  NoDup (map id (videos s ++ newVideos (Some files) u)) ->
  exists s' log,
    runEffect env (fst (onFileSelected (Some files) u s)) = (Returned s', log)
    /\ isProcessing s' = false
    /\ forall j v,
         nth_error (newVideos (Some files) u) j = Some v ->
         exists v',
           nth_error (videos s') (List.length (videos s) + j) = Some v'
           /\ id v' = id v /\ file v' = file v
           /\ (currentIndex s <= List.length (videos s) + j ->
               status v' = completed \/ status v' = failed)
           /\ (List.length (videos s) + j < currentIndex s -> v' = v).
Proof.
  intros Hk Hp Hr Hnd.
  set (new := newVideos (Some files) u) in *.
  set (s1 := fst (onFileSelected (Some files) u s)).
  assert (Hs1 : s1 = isPaused_set false
                       (isProcessing_set true
                          (videos_update (fun current => current ++ new) s))).
  { unfold s1, onFileSelected, startProcessing. simpl.
    rewrite Hp, Hk. reflexivity. }
  assert (Hnew : forall j v, nth_error new j = Some v ->
            nth_error (videos s1) (List.length (videos s) + j) = Some v
            /\ status v = pending).
  { intros j v Hj. split.
    - rewrite Hs1. simpl. rewrite nth_error_app2 by lia.
      now replace (List.length (videos s) + j - List.length (videos s))
        with j by lia.
    - pose proof (newVideos_pending (Some files) u) as H.
      rewrite Forall_forall in H. apply H. eapply nth_error_In; eauto. }
  assert (Hlen : forall j v, nth_error new j = Some v ->
            List.length (videos s) + j < List.length (videos s1)).
  { intros j v Hj. apply nth_error_Some.
    destruct (Hnew j v Hj) as [H _]. congruence. }
  rewrite runEffect_running by (rewrite Hs1; simpl; trivial).
  destruct (Nat.le_gt_cases (currentIndex s1) (List.length (videos s1)))
    as [Hc|Hc].
  - rewrite processQueue_sweep; trivial;
      try (rewrite Hs1; simpl; trivial; now rewrite map_app in * ).
    eexists. eexists. split; [reflexivity|]. split; [reflexivity|].
    intros j v Hj. destruct (Hnew j v Hj) as [Hn Hst].
    cbn [videos finished]. rewrite swept_nth by trivial. rewrite Hn.
    assert (Hcs : currentIndex s1 = currentIndex s)
      by (rewrite Hs1; reflexivity).
    rewrite Hcs.
    destruct (List.length (videos s) + j <? currentIndex s) eqn:E.
    + apply Nat.ltb_lt in E. exists v. repeat split; trivial. lia.
    + apply Nat.ltb_ge in E. simpl. rewrite Hst. simpl.
      eexists. split; [reflexivity|].
      destruct (outcome_settled env (geminiService s1)
                  (List.length (videos s) + j) v) as [H1 [H2 [_ H4]]].
      repeat split; trivial. lia.
  - unfold processQueue, processQueue_start.
    rewrite processQueue_loop_unfold.
    assert ((currentIndex (processQueueRunning_set true s1)
             <? List.length (videos (processQueueRunning_set true s1)))
            = false) as -> by (apply Nat.ltb_ge; simpl; lia).
    simpl "&&". cbv iota. rewrite drain_settled by discriminate.
    eexists. eexists. split; [reflexivity|]. unfold epilogue.
    assert ((List.length (videos (processQueueRunning_set true s1))
             <=? currentIndex (processQueueRunning_set true s1)) = true)
      as -> by (apply Nat.leb_le; simpl; lia).
    split; [reflexivity|].
    intros j v Hj. destruct (Hnew j v Hj) as [Hn Hst].
    specialize (Hlen j v Hj). exists v. simpl.
    assert (Hcs : currentIndex s1 = currentIndex s)
      by (rewrite Hs1; reflexivity).
    repeat split; trivial. lia.
Qed.

End SubmissionClaims.

Lemma stoppedInFlight_state :
  currentIndex (app stoppedInFlight) = 2
  /\ List.length (videos (app stoppedInFlight)) = 1
  /\ @reachable QNumber (Some "key") stoppedInFlight.
Proof.
  repeat split.
  exists [FileSelected (Some [clip]) sampleUUID; EffectRun;
          StopProcessing; FramesSettled broken].
  reflexivity.
Defined.

Lemma submission_and_cursor_witness :
  exists s' log,
    @runEffect QNumber allGood
      (fst (onFileSelected (Some [clip2]) laterUUID (app stoppedInFlight)))
    = (Returned s', log)
    /\ isProcessing s' = false
    /\ exists v', nth_error (videos s') 1 = Some v'
                  /\ status v' = pending.
Proof.
  destruct (@submission_and_cursor QNumber allGood (app stoppedInFlight)
              [clip2] laterUUID)
    as [s' [log [E [Hp H]]]].
  - reflexivity.
  - reflexivity.
  - reflexivity.
  - apply distinct_NoDup. reflexivity.
  - exists s', log. split; [exact E|]. split; [exact Hp|].
    destruct (H 0 {| id := "71b6"; file := clip2; thumbnail := None;
                     status := pending; title := ""; keywords := [];
                     errorMessage := None |} eq_refl)
      as [v' [Hn [_ [_ [_ Hv]]]]].
    exists v'. split; [exact Hn|].
    rewrite Hv; [reflexivity|simpl; lia].
Defined.

(** ** Thumbnails and clearing *)

Section ThumbnailSuccess.
Context {JN : JsNumber}.

(** X17: in a reachable state, when the thumbnail job of an item resolves
    with a frame, the item with the job's identifier, which had no
    thumbnail until then, gets that frame as its thumbnail, every other
    item stays where and as it was, and the job is consumed: no job for
    that identifier remains. *)
Theorem thumbnail_set_once (API_KEY : option string) (sys : System)
    (job : nat) (video : VideoMetadata) (dec : Decoder) (frame : string) :
  reachable API_KEY sys ->
  nth_error (thumbnailJobs sys) job = Some video ->
  fst (extractSingleFrame dec (file video) (of_nat 1)) = Resolved frame ->
  exists sys',
    exec (ThumbnailSettled job dec) sys = Some sys'
    /\ (forall v, In v (videos (app sys)) -> id v = id video ->
                  thumbnail v = None)
    /\ (forall v, In v (videos (app sys')) -> id v = id video ->
                  thumbnail v = Some frame)
    /\ (forall j v, nth_error (videos (app sys)) j = Some v ->
                    id v <> id video ->
                    nth_error (videos (app sys')) j = Some v)
    /\ ~ In (id video) (map id (thumbnailJobs sys'))
    /\ List.length (thumbnailJobs sys') + 1 = List.length (thumbnailJobs sys).
Proof.
  intros Hr Hjob Hres. apply reachable_invariant in Hr.
  destruct Hr as [_ _ _ _ Hjd Hjp].
  assert (Hlen : List.length (firstn job (thumbnailJobs sys)
                              ++ skipn (S job) (thumbnailJobs sys)) + 1
                 = List.length (thumbnailJobs sys)).
  { assert (job < List.length (thumbnailJobs sys))
      by (apply nth_error_Some; congruence).
    rewrite length_app, length_firstn, length_skipn. lia. }
  destruct (removed_job _ _ Hjob Hjd) as [R1 _].
  cbn [exec]. rewrite Hjob, Hres. eexists. split; [reflexivity|].
  cbn [app thumbnailJobs generateThumbnail_settled fst videos videos_update].
  split; [|split; [|split; [|split; [exact R1|exact Hlen]]]].
  - intros v Hv Hid. apply (Hjp (idThumbnail v)).
    + now apply in_map.
    + simpl. rewrite Hid. apply in_map. eapply nth_error_In; eauto.
  - intros v Hv Hid. apply in_map_iff in Hv. destruct Hv as [y [<- Hy]].
    destruct (id y =? id video)%string eqn:E; [reflexivity|].
    apply String.eqb_neq in E. contradiction.
  - intros j v Hj Hne. now apply update_other.
Qed.

(** X18: [clearAll] empties the queue and makes the controller idle
    whatever the state, but it does not cancel the step in flight: when
    that step ends the queue is still empty, nothing is in flight, and the
    cursor is at 1; a thumbnail that settles for a cleared item changes
    nothing. *)
Theorem clearAll_discards (sys : System) (video : VideoMetadata) :
  (videos (clearAll (app sys)) = []
   /\ currentIndex (clearAll (app sys)) = 0
   /\ isProcessing (clearAll (app sys)) = false
   /\ isPaused (clearAll (app sys)) = false
   /\ downloadCSV (clearAll (app sys)) = None)
  /\ (forall frames reply,
        task sys = Some (AwaitMetadata video frames) ->
        exists sys',
          run [ClearAll; MetadataSettled reply] sys = Some sys'
          /\ videos (app sys') = [] /\ currentIndex (app sys') = 1
          /\ task sys' = None /\ isProcessing (app sys') = false
          /\ processQueueRunning (app sys') = false)
  /\ (forall job dec sys',
        exec (ThumbnailSettled job dec)
             (with_app (clearAll (app sys)) sys) = Some sys' ->
        app sys' = clearAll (app sys)).
Proof.
  split; [now repeat split|]. split.
  - intros frames reply Ht. simpl. rewrite Ht.
    destruct (generateMetadataFromFrames (geminiService (app sys)) frames
                reply) as [m|e]; simpl; eexists;
      (split; [reflexivity|]); now repeat split.
  - intros job dec sys' E. simpl in E.
    destruct (nth_error (thumbnailJobs sys) job) as [v|]; [|discriminate].
    injection E as <-. simpl.
    now destruct (fst (extractSingleFrame dec (file v) (of_nat 1))).
Qed.

End ThumbnailSuccess.

Lemma thumbnail_set_once_witness :
  exists sys',
    @exec QNumber (ThumbnailSettled 0 tenSeconds) awaitingFrames = Some sys'
    /\ map thumbnail (videos (app sys')) = [Some "data:image/jpeg;base64,AAAA"]
    /\ thumbnailJobs sys' = [].
Proof.
  destruct (@thumbnail_set_once QNumber (Some "key") awaitingFrames 0
              (sampleItem "3f2a" pending "" [] None) tenSeconds
              "data:image/jpeg;base64,AAAA"
              awaitingFrames_reachable eq_refl eq_refl)
    as [sys' [E _]].
  exists sys'. split; [exact E|].
  vm_compute in E. injection E as <-. split; reflexivity.
Defined.

Lemma clearAll_discards_witness :
  exists sys',
    @run QNumber [ClearAll; MetadataSettled (Some answerT)] awaitingInference
    = Some sys'
    /\ videos (app sys') = [] /\ currentIndex (app sys') = 1.
Proof.
  destruct (@clearAll_discards QNumber awaitingInference
              (sampleItem "3f2a" pending "" [] None)) as [_ [H _]].
  destruct (H (List.repeat "data:image/jpeg;base64,AAAA" 8) (Some answerT)
              eq_refl) as [sys' [E [Hv [Hc _]]]].
  exists sys'. split; [exact E|]. split; [exact Hv|exact Hc].
Defined.

(** ** The reentrancy guard and retry *)

Section GuardClaims.
Context {JN : JsNumber}.
Variable env : Env.


(** X20: on an idle component with a key and unique identifiers, the
    traversal that follows [retryFailed] requests the frames of every item
    that was pending or failed, in one pass from the start of the queue,
    and each of them ends completed or failed: no item is pending
    afterwards. *)
Theorem retry_reattempts_all (s : AppComponent) :
  apiKeyMissing s = false ->
  processQueueRunning s = false ->
  NoDup (map id (videos s)) ->
  exists s' log,
    runEffect env (fst (retryFailed s)) = (Returned s', log)
    /\ (forall j v, nth_error (videos s) j = Some v ->
          eligible (status v) = true ->
          In (AwaitFrames v) log
          /\ exists v', nth_error (videos s') j = Some v'
                        /\ id v' = id v
                        /\ (status v' = completed \/ status v' = failed))
    /\ forall v', In v' (videos s') -> status v' <> pending.
Proof.
  intros Hk Hr Hnd.
  assert (Hs1 : fst (retryFailed s)
                = isPaused_set false
                    (isProcessing_set true (currentIndex_set 0 s))).
  { unfold retryFailed, startProcessing. simpl. now rewrite Hk. }
  rewrite Hs1. rewrite runEffect_running by (simpl; trivial).
  rewrite processQueue_sweep by (simpl; trivial; lia).
  eexists. eexists. split; [reflexivity|]. simpl. split.
  - intros j v Hj He. split.
    + eapply sweepLog_requested; eauto.
    + rewrite sweep_nth, Hj, He. simpl. eexists. split; [reflexivity|].
      destruct (outcome_settled env (geminiService s) j v)
        as [H1 [_ [_ H4]]].
      now split.
  - intros v' Hin. apply In_nth_error in Hin. destruct Hin as [j Hj].
    rewrite sweep_nth in Hj.
    destruct (nth_error (videos s) j) as [v|]; [|discriminate].
    injection Hj as <-.
    destruct (eligible (status v)) eqn:He.
    + destruct (outcome_settled env (geminiService s) j v)
        as [_ [_ [_ [H|H]]]]; rewrite H; discriminate.
    + intros Hp. rewrite Hp in He. discriminate.
Qed.

End GuardClaims.


Lemma retry_reattempts_all_witness :
  exists s' log,
    @runEffect QNumber allGood (fst (retryFailed oneDoneOneFailed))
    = (Returned s', log)
    /\ forall v', In v' (videos s') -> status v' <> pending.
Proof.
  destruct (@retry_reattempts_all QNumber allGood oneDoneOneFailed)
    as [s' [log [E [_ H]]]].
  - reflexivity.
  - reflexivity.
  - apply distinct_NoDup. reflexivity.
  - exists s', log. split; [exact E|exact H].
Defined.

(** ** Files selected during a traversal *)

Lemma NoDup_app_disjoint (A : Type) (l1 l2 : list A) (x : A) :
  NoDup (l1 ++ l2) -> In x l1 -> ~ In x l2.
Proof.
  induction l1 as [|a l1 IH]; simpl; intros Hnd Hin Hin2; [contradiction|].
  inversion Hnd as [|? ? Hna Hnd']; subst.
  destruct Hin as [->|Hin].
  - apply Hna. apply in_or_app. now right.
  - now apply IH.
Qed.

Section RunningSubmission.
Context {JN : JsNumber}.
Variable env : Env.

Lemma updateVideoResult_ids (idv : string) (st : Status) (ti : string)
    (ks : list string) (e : option string) (s : AppComponent) :
  map id (videos (updateVideoResult idv st ti ks e s)) = map id (videos s).
Proof.
  simpl. rewrite map_map. apply map_ext. intros v.
  now destruct (id v =? idv)%string.
Qed.

(** Once the step in flight has recorded its result, the loop goes on from
    the next position to the end of the queue. *)
Lemma drain_after_step (s : AppComponent) (idv : string) (st : Status)
    (ti : string) (ks : list string) (e : option string) (fuel : nat)
    (log : list Task) :
  isProcessing s = true ->
  isPaused s = false ->
  currentIndex s < List.length (videos s) ->
  NoDup (map id (videos s)) ->
  2 * (List.length (videos s) - S (currentIndex s)) <= fuel ->
  drain fuel env
    (processQueue_loop
       (currentIndex_update S (updateVideoResult idv st ti ks e s))) log
  = (Returned
       (finished s
          (firstn (S (currentIndex s))
             (videos (updateVideoResult idv st ti ks e s))
           ++ sweep (geminiService s) env (S (currentIndex s))
                (skipn (S (currentIndex s))
                   (videos (updateVideoResult idv st ti ks e s))))),
     log ++ sweepLog env (S (currentIndex s))
              (skipn (S (currentIndex s))
                 (videos (updateVideoResult idv st ti ks e s)))).
Proof.
  intros Hp Hq Hc Hnd Hfuel.
  set (l' := videos (updateVideoResult idv st ti ks e s)).
  assert (Hl : List.length l' = List.length (videos s)).
  { unfold l'. simpl. apply length_map. }
  assert (Hpre : List.length (firstn (S (currentIndex s)) l')
                 = S (currentIndex s)) by (rewrite length_firstn; lia).
  rewrite (@drain_sweep JN env (skipn (S (currentIndex s)) l')
             (firstn (S (currentIndex s)) l')).
  - rewrite Hpre. reflexivity.
  - cbn [currentIndex_update videos]. fold l'. now rewrite firstn_skipn.
  - cbn [currentIndex_update currentIndex updateVideoResult videos_update].
    now rewrite Hpre.
  - cbn [currentIndex_update videos]. fold l'. unfold l'.
    now rewrite updateVideoResult_ids.
  - exact Hp.
  - exact Hq.
  - rewrite length_skipn, Hl. exact Hfuel.
Qed.

(** A traversal suspended at either [await], left to run to its end. *)
Lemma drain_in_flight (s : AppComponent) (t : Task) :
  isProcessing s = true ->
  isPaused s = false ->
  currentIndex s < List.length (videos s) ->
  NoDup (map id (videos s)) ->
  exists st ti ks e log0,
    drain (2 * (List.length (videos s) - currentIndex s)) env
      (Suspended s t) []
    = (Returned
         (finished s
            (firstn (S (currentIndex s))
               (videos (updateVideoResult (id (task_video t)) st ti ks e s))
             ++ sweep (geminiService s) env (S (currentIndex s))
                  (skipn (S (currentIndex s))
                     (videos (updateVideoResult (id (task_video t)) st ti ks
                                e s))))),
       log0 ++ sweepLog env (S (currentIndex s))
                 (skipn (S (currentIndex s))
                    (videos (updateVideoResult (id (task_video t)) st ti ks
                               e s)))).
Proof.
  intros Hp Hq Hc Hnd.
  assert (HF : 2 * (List.length (videos s) - currentIndex s)
               = S (S (2 * (List.length (videos s) - S (currentIndex s)))))
    by lia.
  rewrite HF. rewrite drain_suspended.
  destruct t as [video|video frames]; cbn [resumeTask task_video].
  - destruct (fst (extractFrames (decoderAt env (currentIndex s))
                     (file video) 8)) as [frames|e]; cbn [onFramesSettled].
    + rewrite drain_suspended. cbn [resumeTask].
      destruct (generateMetadataFromFrames (geminiService s) frames
                  (replyAt env (currentIndex s))) as [m|e];
        cbn [onMetadataSettled]; unfold catchBlock;
        rewrite drain_after_step by (trivial; lia);
        do 5 eexists; reflexivity.
    + unfold catchBlock. rewrite drain_after_step by (trivial; lia).
      do 5 eexists; reflexivity.
  - destruct (generateMetadataFromFrames (geminiService s) frames
                (replyAt env (currentIndex s))) as [m|e];
      cbn [onMetadataSettled]; unfold catchBlock;
      rewrite drain_after_step by (trivial; lia);
      do 5 eexists; reflexivity.
Qed.

(** X21: files selected while a traversal is suspended on an item of the
    queue neither raise an alert nor start a second traversal nor move the
    cursor: the items are appended, and the traversal in flight, left to
    run, reaches each of them, requests its frames and leaves it completed
    or failed before it returns. *)
Theorem submission_while_running (s : AppComponent) (t : Task)
    (files : list File) (u : nat -> string) :
  isProcessing s = true ->
  isPaused s = false ->
  currentIndex s < List.length (videos s) ->
  In (id (task_video t)) (map id (videos s)) ->
  NoDup (map id (videos s ++ newVideos (Some files) u)) ->
  snd (onFileSelected (Some files) u s) = []
  /\ currentIndex (fst (onFileSelected (Some files) u s)) = currentIndex s
  /\ processQueueRunning (fst (onFileSelected (Some files) u s))
     = processQueueRunning s
  /\ exists s' log,
       drain (2 * (List.length (videos (fst (onFileSelected (Some files) u s)))
                   - currentIndex s)) env
         (Suspended (fst (onFileSelected (Some files) u s)) t) []
       = (Returned s', log)
       /\ isProcessing s' = false
       /\ forall j v,
            nth_error (newVideos (Some files) u) j = Some v ->
            In (AwaitFrames v) log
            /\ exists v',
                 nth_error (videos s') (List.length (videos s) + j) = Some v'
                 /\ id v' = id v /\ file v' = file v
                 /\ (status v' = completed \/ status v' = failed).
Proof.
  intros Hp Hq Hc Hin Hnd.
  set (new := newVideos (Some files) u) in *.
  assert (Hs1 : onFileSelected (Some files) u s
                = (videos_update (fun current => current ++ new) s, [])).
  { unfold onFileSelected. cbn [isProcessing videos_update].
    now rewrite Hp. }
  rewrite Hs1. cbn [fst snd].
  set (s1 := videos_update (fun current => current ++ new) s).
  assert (Hv1 : videos s1 = videos s ++ new) by reflexivity.
  assert (Hc1 : currentIndex s1 = currentIndex s) by reflexivity.
  split; [reflexivity|]. split; [exact Hc1|]. split; [reflexivity|].
  destruct (drain_in_flight s1 t) as [st [ti [ks [e [log0 E]]]]]; trivial.
  { rewrite Hv1, length_app, Hc1. lia. }
  rewrite Hc1 in E. rewrite E. eexists. eexists.
  split; [reflexivity|]. split; [reflexivity|].
  intros j v Hj.
  assert (Hst : status v = pending).
  { pose proof (newVideos_pending (Some files) u) as H.
    rewrite Forall_forall in H. apply H. eapply nth_error_In; eauto. }
  assert (Hne : id v <> id (task_video t)).
  { intros Heq. rewrite map_app in Hnd.
    apply (NoDup_app_disjoint _ _ (id (task_video t)) Hnd Hin).
    rewrite <- Heq. apply in_map. eapply nth_error_In; eauto. }
  assert (Hpos : nth_error
                   (videos (updateVideoResult (id (task_video t)) st ti ks e
                              s1)) (List.length (videos s) + j) = Some v).
  { cbn [updateVideoResult videos videos_update]. apply update_other; trivial.
    rewrite Hv1, nth_error_app2 by lia.
    now replace (List.length (videos s) + j - List.length (videos s))
      with j by lia. }
  split.
  - apply in_or_app. right.
    apply sweepLog_requested
      with (j := List.length (videos s) + j - S (currentIndex s)).
    + rewrite nth_error_skipn.
      now replace (S (currentIndex s)
                   + (List.length (videos s) + j - S (currentIndex s)))
        with (List.length (videos s) + j) by lia.
    + now rewrite Hst.
  - cbn [videos finished]. rewrite swept_nth.
    + assert ((List.length (videos s) + j <? S (currentIndex s)) = false)
        as -> by (apply Nat.ltb_ge; lia).
      rewrite Hpos. simpl. rewrite Hst. simpl.
      eexists. split; [reflexivity|].
      destruct (outcome_settled env (geminiService s1)
                  (List.length (videos s) + j) v) as [H1 [H2 [_ H4]]].
      now repeat split.
    + assert (Hl : List.length
                     (videos (updateVideoResult (id (task_video t)) st ti ks
                                e s1)) = List.length (videos s1))
        by (simpl; apply length_map).
      rewrite Hl, Hv1, length_app. lia.
Qed.

End RunningSubmission.

Lemma submission_while_running_witness :
  exists s' log,
    @drain QNumber 4 allGood
      (Suspended
         (fst (onFileSelected (Some [clip2]) laterUUID (app awaitingFrames)))
         (AwaitFrames
            {| id := "3f2a"; file := clip; thumbnail := None;
               status := pending; title := ""; keywords := [];
               errorMessage := None |})) []
    = (Returned s', log)
    /\ isProcessing s' = false
    /\ exists v', nth_error (videos s') 1 = Some v'
                  /\ id v' = "71b6"
                  /\ (status v' = completed \/ status v' = failed).
Proof.
  destruct (@submission_while_running QNumber allGood (app awaitingFrames)
              (AwaitFrames
                 {| id := "3f2a"; file := clip; thumbnail := None;
                    status := pending; title := ""; keywords := [];
                    errorMessage := None |})
              [clip2] laterUUID)
    as [_ [_ [_ [s' [log [E [Hp H]]]]]]].
  - reflexivity.
  - reflexivity.
  - simpl. lia.
  - simpl. left. reflexivity.
  - apply distinct_NoDup. reflexivity.
  - exists s', log. split; [exact E|]. split; [exact Hp|].
    destruct (H 0 {| id := "71b6"; file := clip2; thumbnail := None;
                     status := pending; title := ""; keywords := [];
                     errorMessage := None |} eq_refl)
      as [_ [v' [Hn [Hi [_ Hs]]]]].
    exists v'. split; [exact Hn|]. split; [exact Hi|exact Hs].
Defined.

Lemma copied_flag_lifecycle_witness :
  getKey "9c41-keywords"
    (copied_written "title" "3f2a" [("9c41-keywords", true)]) = Some true
  /\ getKey "3f2a-title"
       (copied_expired "title" "3f2a"
          (copied_written "title" "3f2a" [("9c41-keywords", true)]))
     = Some false.
Proof.
  destruct (copied_flag_lifecycle "title" "3f2a" [("9c41-keywords", true)])
    as [_ [H2 [_ [_ H5]]]].
  split; [|exact H2].
  destruct (H5 "9c41-keywords") as [H _].
  - discriminate.
  - rewrite H. reflexivity.
Defined.
